(** * Packed-memory array (pma.h / pma.cc): a shallow embedding

    The class [pma] keeps two parallel vectors, [_storage] (the keys) and
    [_free_index_bitmap] (one bit per slot), together with the metadata
    [_implicit_tree_height], [_segment_size] and [_size].

    Member functions are embedded as functions on a record of these five
    fields.  C++ behaviour that the language leaves undefined (indexing a
    vector past its end, integer division by zero, flowing off the end of a
    value-returning function, ...) is made explicit: every member function
    returns a [result], which is either [Ok v] or the [Fault] that the
    execution runs into.  Loops are driven by a fuel argument; [OutOfFuel]
    is a distinct outcome that is never confused with a completed call. *)

From Stdlib Require Import ZArith QArith Lia List Bool.
From stdpp Require Import base list sorting.
Import ListNotations.

#[local] Open Scope Z_scope.

(** ** Machine integers

    [uint32_t] values are integers in [0, 2^32) and [int] values are
    integers in [-2^31, 2^31); the conversions below are the ones the
    compiler inserts. *)

Module Int32.

Definition modulus : Z := 2 ^ 32.
Definition half_modulus : Z := 2 ^ 31.

(** Conversion to [uint32_t]: reduction modulo 2^32. *)
Definition to_uint (z : Z) : Z := z mod modulus.

(** Conversion to [int]: the representative in [-2^31, 2^31). *)
Definition to_int (z : Z) : Z :=
  let u := z mod modulus in
  if u <? half_modulus then u else u - modulus.

End Int32.

Abbreviation u32 := Int32.to_uint.
Abbreviation i32 := Int32.to_int.

(** ** Outcomes of a call *)

Inductive fault : Type :=
  | OutOfBounds (index : Z)   (* vector indexed at or past its size *)
  | DivByZero                 (* integer [/] or [%] with a zero divisor *)
  | NoReturnValue             (* control reaches the end of a non-void function *)
  | ShiftTooWide              (* [<<] by 32 or more *)
  | BadLog2                   (* [log2] of a non-positive value converted to [int] *)
  | SignedOverflow.           (* [int] arithmetic leaving [-2^31, 2^31) *)

Inductive result (A : Type) : Type :=
  | Ok (a : A)
  | Fault (f : fault)
  | OutOfFuel.

Arguments Ok {A} a.
Arguments Fault {A} f.
Arguments OutOfFuel {A}.

#[global] Instance result_ret : MRet result := fun _ a => Ok a.

#[global] Instance result_bind : MBind result := fun _ _ k r =>
  match r with
  | Ok a => k a
  | Fault f => Fault f
  | OutOfFuel => OutOfFuel
  end.

(** [int] addition; overflow is undefined. *)
Definition int_add (a b : Z) : result Z :=
  let r := a + b in
  if (- Int32.half_modulus <=? r) && (r <? Int32.half_modulus)
  then Ok r else Fault SignedOverflow.

(** A call completes when it returns [Ok]. *)
Definition completes {A : Type} (r : result A) : Prop := exists a, r = Ok a.

(** ** Vectors

    [std::vector<T>::operator[]] does no bounds check: an index outside
    [0, size()) is undefined behaviour.  An [int] index is converted to
    [size_t] by sign extension, so a negative one is out of range too. *)

Section Vector.
Context {A : Type}.

Definition in_range (v : list A) (i : Z) : bool :=
  (0 <=? i) && (i <? Z.of_nat (length v)).

Definition vec_get (v : list A) (i : Z) : result A :=
  if in_range v i then
    match v !! Z.to_nat i with
    | Some a => Ok a
    | None => Fault (OutOfBounds i)
    end
  else Fault (OutOfBounds i).

Definition vec_set (v : list A) (i : Z) (a : A) : result (list A) :=
  if in_range v i then Ok (<[Z.to_nat i := a]> v)
  else Fault (OutOfBounds i).

(** [vector::resize(n)]: truncate, or pad with value-initialised
    elements. *)
Definition vec_resize (dflt : A) (v : list A) (n : nat) : list A :=
  take n v ++ replicate (n - length v)%nat dflt.
End Vector.

(** ** The class [pma] *)

(** pma.h, static constants.  The two upper densities, 0.5 and 1.0, are
    exact as doubles.  The lower densities 0.1 and 0.2 are not, and are
    left out together with [lower_density_threshold], which no function
    of pma.cc calls. *)
Definition INITIAL_CAPACITY : Z := 4.
Definition SCALE_FACTOR : Z := 2.
Definition ROOT_UPPER_DENSITY : Q := 5 # 10.
Definition LEAF_UPPER_DENSITY : Q := 1.

(** pma.h, data members. *)
Record pma : Type := mk_pma {
  _implicit_tree_height : Z;         (* int *)
  _segment_size : Z;                 (* uint32_t *)
  _size : Z;                         (* uint32_t *)
  _free_index_bitmap : list bool;    (* std::vector<bool> *)
  _storage : list Z                  (* std::vector<int> *)
}.

(** [log2(n)] on a positive [int], converted back to [int] (truncation).
    For [0 < n < 2^31] the double result truncates to [Z.log2 n]. *)
Definition log2_int (n : Z) : result Z :=
  if 0 <? n then Ok (Z.log2 n) else Fault BadLog2.

(** pma.cc:17-24, [pma::pma()].  The initialisers are all defined for
    [INITIAL_CAPACITY = 4], so construction is a total function. *)
Definition pma_new : pma :=
  let h := Z.log2 INITIAL_CAPACITY in
  {| _implicit_tree_height := h;
     _segment_size := u32 (Z.quot INITIAL_CAPACITY h);
     _size := 0;
     _free_index_bitmap := vec_resize false [] (Z.to_nat INITIAL_CAPACITY);
     _storage := vec_resize 0 [] (Z.to_nat INITIAL_CAPACITY) |}.

(** pma.cc:187-201, the accessors. *)
Definition capacity (p : pma) : Z := u32 (Z.of_nat (length (_storage p))).
Definition size (p : pma) : Z := _size p.
Definition segment_size (p : pma) : Z := _segment_size p.
Definition tree_height (p : pma) : Z := _implicit_tree_height p.

(** pma.cc:203-205, [number_of_segments]. *)
Definition number_of_segments (p : pma) : result Z :=
  if _segment_size p =? 0 then Fault DivByZero
  else Ok (i32 (Z.of_nat (length (_storage p)) / _segment_size p)).

(** pma.cc:207-209, [index_is_free]: the parameter is a [uint32_t]; the
    slot is free when its bit is [false]. *)
Definition index_is_free (p : pma) (indexno : Z) : result bool :=
  b ← vec_get (_free_index_bitmap p) (u32 indexno);
  Ok (negb b).

(** pma.cc:29-35, [operator[]]: a reference into [_storage]; reading and
    writing through it. *)
Definition at_index (p : pma) (n : Z) : result Z := vec_get (_storage p) n.

Definition assign_at (p : pma) (n : Z) (v : Z) : result pma :=
  st ← vec_set (_storage p) n v;
  Ok {| _implicit_tree_height := _implicit_tree_height p;
        _segment_size := _segment_size p;
        _size := _size p;
        _free_index_bitmap := _free_index_bitmap p;
        _storage := st |}.

(** Field updates. *)
Definition set_storage (p : pma) (st : list Z) : pma :=
  {| _implicit_tree_height := _implicit_tree_height p;
     _segment_size := _segment_size p;
     _size := _size p;
     _free_index_bitmap := _free_index_bitmap p;
     _storage := st |}.

Definition set_bitmap (p : pma) (bm : list bool) : pma :=
  {| _implicit_tree_height := _implicit_tree_height p;
     _segment_size := _segment_size p;
     _size := _size p;
     _free_index_bitmap := bm;
     _storage := _storage p |}.

Definition set_size (p : pma) (n : Z) : pma :=
  {| _implicit_tree_height := _implicit_tree_height p;
     _segment_size := _segment_size p;
     _size := n;
     _free_index_bitmap := _free_index_bitmap p;
     _storage := _storage p |}.

(** [_storage[i] = v] and [_free_index_bitmap[i].flip()] /
    [_free_index_bitmap[i] = b] as state transformers. *)
Definition store (p : pma) (i : Z) (v : Z) : result pma :=
  st ← vec_set (_storage p) i v; Ok (set_storage p st).

Definition flip (p : pma) (i : Z) : result pma :=
  b ← vec_get (_free_index_bitmap p) i;
  bm ← vec_set (_free_index_bitmap p) i (negb b);
  Ok (set_bitmap p bm).

Definition set_bit (p : pma) (i : Z) (b : bool) : result pma :=
  bm ← vec_set (_free_index_bitmap p) i b; Ok (set_bitmap p bm).

(** ** Density model (pma.cc:211-215 and 223-225) *)

(** [upper_density_threshold] returns a [double]; here it is the exact
    rational.  The code reads it in two places only, both comparisons
    with an integer-valued quotient: [udt(0) <= density] in [insert],
    where the double is exactly 1.0 for a non-zero tree height (the
    caller guards the zero case, a NaN), and [sz/cap < udt(height)] in
    [rebalance] for [1 <= height < _implicit_tree_height], where the
    double and the rational both lie strictly between 0.5 and 1.  Both
    comparisons therefore come out as they do on doubles. *)
Definition upper_density_threshold (p : pma) (height : Z) : Q :=
  (ROOT_UPPER_DENSITY + (LEAF_UPPER_DENSITY - ROOT_UPPER_DENSITY) *
     inject_Z (_implicit_tree_height p - height) /
     inject_Z (_implicit_tree_height p))%Q.

(** [_segment_size << height]; shifting a 32-bit value by a negative
    amount or by 32 or more is undefined. *)
Definition window_capacity (p : pma) (height : Z) : result Z :=
  if (0 <=? height) && (height <? 32)
  then Ok (u32 (Z.shiftl (_segment_size p) height))
  else Fault ShiftTooWide.

(** ** Window scanner (pma.cc:227-235)

    The loop variable is an [int] compared against the [uint32_t] value
    [window + length]: the comparison is unsigned. *)
Fixpoint window_size_loop (fuel : nat) (p : pma) (bound i sz : Z)
  : result Z :=
  match fuel with
  | O => OutOfFuel
  | S fuel' =>
      if u32 i <? bound then
        free ← index_is_free p i;
        i' ← int_add i 1;
        window_size_loop fuel' p bound i'
          (if free : bool then sz else u32 (sz + 1))
      else Ok sz
  end.

Definition window_size (fuel : nat) (p : pma) (window length : Z)
  : result Z :=
  window_size_loop fuel p (u32 (window + length)) (i32 window) 0.

(** ** Locator (pma.cc:63-95) *)

(** The inner loop of [segment_to_insert].  Its condition is
    [seg < _segment_size]; [i] takes no part in it.  [Some v] is a
    [return v], [None] is leaving the loop. *)
Fixpoint segment_scan (fuel : nat) (p : pma) (x seg i : Z)
  : result (option Z) :=
  match fuel with
  | O => OutOfFuel
  | S fuel' =>
      if seg <? _segment_size p then
        free ← index_is_free p i;
        if free : bool then segment_scan fuel' p x seg (u32 (i + 1))
        else
          k ← vec_get (_storage p) i;
          if x >? k then Ok None
          else if x =? k then Ok (Some seg)
          else Ok (Some (u32 (seg - _segment_size p)))
      else Ok None
  end.

(** The outer loop; when it ends the function has no [return]. *)
Fixpoint segment_loop (fuel : nat) (p : pma) (x seg : Z) : result Z :=
  match fuel with
  | O => OutOfFuel
  | S fuel' =>
      if seg <? capacity p then
        r ← segment_scan fuel' p x seg seg;
        match r with
        | Some v => Ok v
        | None => segment_loop fuel' p x (u32 (seg + _segment_size p))
        end
      else Fault NoReturnValue
  end.

Definition segment_to_insert (fuel : nat) (p : pma) (x : Z) : result Z :=
  segment_loop fuel p x 0.

(** [position_to_insert]: the bound [_segment_size - 1] is a [uint32_t]
    and does not depend on [segment]. *)
Fixpoint position_loop (fuel : nat) (p : pma) (x i pos : Z) : result Z :=
  match fuel with
  | O => OutOfFuel
  | S fuel' =>
      if i <? u32 (_segment_size p - 1) then
        free ← index_is_free p i;
        if free : bool then position_loop fuel' p x (u32 (i + 1)) pos
        else
          k ← vec_get (_storage p) i;
          let pos := if x >? k then u32 (i + 1) else pos in
          if x =? k then position_loop fuel' p x (u32 (i + 1)) (u32 (i + 1))
          else Ok pos
      else Ok pos
  end.

Definition position_to_insert (fuel : nat) (p : pma) (segment x : Z)
  : result Z :=
  position_loop fuel p x (u32 segment) 0.

(** ** Redistribution (pma.cc:135-175) *)

(** [clear_window]: [int] loop variable, unsigned comparison; the [int]
    indexes the vectors directly. *)
Fixpoint clear_window_loop (fuel : nat) (p : pma) (bound i : Z)
  : result pma :=
  match fuel with
  | O => OutOfFuel
  | S fuel' =>
      if u32 i <? bound then
        p1 ← store p i 0;
        p2 ← set_bit p1 i false;
        i' ← int_add i 1;
        clear_window_loop fuel' p2 bound i'
      else Ok p
  end.

Definition clear_window (fuel : nat) (p : pma) (window length : Z)
  : result pma :=
  clear_window_loop fuel p (u32 (window + length)) (i32 window).

(** First loop of [naive_rebalance]: live keys are moved to
    [next_index], which the caller starts at 0.  Returns the state and
    the final [next_index]. *)
Fixpoint compact_loop (fuel : nat) (p : pma) (bound i next_index : Z)
  : result (pma * Z) :=
  match fuel with
  | O => OutOfFuel
  | S fuel' =>
      if u32 i <? bound then
        free ← index_is_free p i;
        if free : bool then
          i' ← int_add i 1;
          compact_loop fuel' p bound i' next_index
        else if next_index =? i then
          n' ← int_add next_index 1;
          i' ← int_add i 1;
          compact_loop fuel' p bound i' n'
        else
          k ← vec_get (_storage p) i;
          p1 ← store p next_index k;
          p2 ← flip p1 next_index;
          p3 ← store p2 i 0;
          p4 ← flip p3 i;
          n' ← int_add next_index 1;
          i' ← int_add i 1;
          compact_loop fuel' p4 bound i' n'
      else Ok (p, next_index)
  end.

(** Second loop: [i >= window] compares the [int] [i] with the
    [uint32_t] [window], so it is an unsigned comparison. *)
Fixpoint spread_loop (fuel : nat) (p : pma) (window gap i next_index : Z)
  : result pma :=
  match fuel with
  | O => OutOfFuel
  | S fuel' =>
      if u32 i >=? window then
        k ← vec_get (_storage p) next_index;
        p1 ← store p i k;
        p2 ← flip p1 i;
        p3 ← store p2 next_index 0;
        p4 ← flip p3 next_index;
        n' ← int_add next_index (-1);
        i' ← int_add i (- gap);
        spread_loop fuel' p4 window gap i' n'
      else Ok p
  end.

Definition naive_rebalance (fuel : nat) (p : pma) (window length : Z)
  : result pma :=
  sz ← window_size fuel p window length;
  let size := i32 sz in
  '(p1, _) ← compact_loop fuel p (u32 (window + length)) (i32 window) 0;
  next_index ← int_add size (-1);
  if u32 size =? 0 then Fault DivByZero
  else
    let gap := i32 (u32 length / u32 size) in
    spread_loop fuel p1 (u32 window) gap (i32 (window + length - 1))
      next_index.

(** ** Resize (pma.cc:177-185) *)

Definition resize (fuel : nat) (p : pma) : result pma :=
  let new_capacity := i32 (Z.shiftl (capacity p) 1) in
  h ← log2_int new_capacity;
  if h =? 0 then Fault DivByZero
  else
    let p1 :=
      {| _implicit_tree_height := h;
         _segment_size := u32 (Z.quot new_capacity h);
         _size := _size p;
         _free_index_bitmap :=
           vec_resize false (_free_index_bitmap p) (Z.to_nat new_capacity);
         _storage := vec_resize 0 (_storage p) (Z.to_nat new_capacity) |} in
    naive_rebalance fuel p1 0 new_capacity.

(** ** Rebalancer (pma.cc:97-133) *)

(** What the upward walk of [rebalance] ends with: either a call of
    [naive_rebalance(window, length)] or a call of [resize()]. *)
Inductive plan : Type :=
  | Redistribute (window length : Z)
  | Grow.

(** The window [rebalance] starts from. *)
Definition rebalance_start (p : pma) (segment : Z) : result (Z * Z) :=
  n ← number_of_segments p;
  if u32 n =? 0 then Fault DivByZero
  else
    let window :=
      if u32 segment mod u32 n =? 0 then u32 segment
      else u32 (segment - _segment_size p) in
    Ok (window, u32 (_segment_size p * 2)).

(** The [for] loop over [height]. *)
Fixpoint rebalance_walk (fuel : nat) (p : pma) (height window length : Z)
  : result plan :=
  match fuel with
  | O => OutOfFuel
  | S fuel' =>
      if height <? _implicit_tree_height p then
        let udt := upper_density_threshold p height in
        cap ← window_capacity p height;
        sz ← window_size fuel' p window length;
        if cap =? 0 then Fault DivByZero
        else if negb (Qle_bool udt (inject_Z (sz / cap))) then
          Ok (Redistribute window length)
        else if (window =? 0) && (u32 (window + length) =? u32 (capacity p - 1))
        then Ok Grow
        else
          h' ← int_add height 1;
          if window =? 0 then
            rebalance_walk fuel' p h' window (u32 (length + cap))
          else if u32 (window + length) =? u32 (capacity p - 1) then
            rebalance_walk fuel' p h' (u32 (window - cap)) length
          else
            rebalance_walk fuel' p h' (u32 (window - cap / 2))
              (u32 (length + cap / 2))
      else Ok (Redistribute window length)
  end.

Definition rebalance (fuel : nat) (p : pma) (segment : Z) : result pma :=
  '(window, length) ← rebalance_start p segment;
  pl ← rebalance_walk fuel p 1 window length;
  match pl with
  | Redistribute w l => naive_rebalance fuel p w l
  | Grow => resize fuel p
  end.

(** ** Insertion (pma.cc:37-61)

    When the chosen slot is occupied nothing is written (the shift is a
    TODO in the source); only the density test and the rebalance run.
    The test [upper_density_threshold(0) <= density] is between doubles;
    with a zero tree height the threshold is a NaN and the test fails. *)
Definition insert (fuel : nat) (p : pma) (x : Z) : result pma :=
  segment ← segment_to_insert fuel p x;
  pos ← position_to_insert fuel p segment x;
  free ← index_is_free p pos;
  if free : bool then
    p1 ← store p pos x;
    p2 ← flip p1 pos;
    Ok (set_size p2 (u32 (_size p2 + 1)))
  else
    sz ← window_size fuel p segment (_segment_size p);
    if _segment_size p =? 0 then Fault DivByZero
    else
      let density := inject_Z (sz / _segment_size p) in
      if negb (_implicit_tree_height p =? 0)
         && Qle_bool (upper_density_threshold p 0) density
      then rebalance fuel p segment
      else Ok p.

(** ** Public operations and reachable states

    The member functions that can change a [pma] are the non-const
    public ones: writing through [operator[]], [clear_window], [insert],
    [rebalance], [naive_rebalance] and [resize].  ([erase],
    [one_phase_rebalance], [predecessor] and [within_balance] are
    declared in pma.h but have no definition.)  An operation is a step
    only when the call completes. *)
Inductive public_step : pma -> pma -> Prop :=
  | step_assign p n v p' :
      assign_at p n v = Ok p' -> public_step p p'
  | step_clear_window fuel p window length p' :
      clear_window fuel p window length = Ok p' -> public_step p p'
  | step_insert fuel p x p' :
      insert fuel p x = Ok p' -> public_step p p'
  | step_rebalance fuel p segment p' :
      rebalance fuel p segment = Ok p' -> public_step p p'
  | step_naive_rebalance fuel p window length p' :
      naive_rebalance fuel p window length = Ok p' -> public_step p p'
  | step_resize fuel p p' :
      resize fuel p = Ok p' -> public_step p p'.

(** States of a [pma] built by the default constructor. *)
Inductive reachable : pma -> Prop :=
  | reach_new : reachable pma_new
  | reach_step p p' : reachable p -> public_step p p' -> reachable p'.

(** ** Observations used by the properties *)

(** Keys of the occupied slots, in increasing index order. *)
Fixpoint live_keys_of (bm : list bool) (st : list Z) : list Z :=
  match bm, st with
  | b :: bm', k :: st' =>
      if b then k :: live_keys_of bm' st' else live_keys_of bm' st'
  | _, _ => []
  end.

Definition live_keys (p : pma) : list Z :=
  live_keys_of (_free_index_bitmap p) (_storage p).

(** Keys of the occupied slots with index in [[lo, lo + len)]. *)
Definition window_keys (p : pma) (lo len : nat) : list Z :=
  live_keys_of (take len (drop lo (_free_index_bitmap p)))
               (take len (drop lo (_storage p))).

(** Index [i] is in use: [index_is_free(i)] returns [false]. *)
Definition in_use (p : pma) (i : Z) : bool :=
  match index_is_free p i with
  | Ok false => true
  | _ => false
  end.

(** Number of indices [i < capacity()] that are in use. *)
Definition occupied_count (p : pma) : Z :=
  Z.of_nat (length (filter (fun i => in_use p i = true)
                           (seqZ 0 (capacity p)))).

(** Non-decreasing sequences. *)
Fixpoint non_decreasing (l : list Z) : bool :=
  match l with
  | a :: (b :: _) as tl => (a <=? b) && non_decreasing tl
  | _ => true
  end.

Definition is_power_of_two (n : Z) : Prop := exists k, 0 <= k /\ n = 2 ^ k.

(** No slot is occupied. *)
Definition all_free (p : pma) : Prop :=
  Forall (fun b => b = false) (_free_index_bitmap p).

(** The shape the constructor establishes. *)
Record fresh_shape (p : pma) : Prop := {
  fresh_height : _implicit_tree_height p = 2;
  fresh_segment : _segment_size p = 2;
  fresh_size : _size p = 0;
  fresh_bitmap : _free_index_bitmap p = replicate 4 false;
  fresh_storage : length (_storage p) = 4%nat
}.

(** ** Concrete states used below *)

(** A state reached by one completed operation: [database[1] = 7] on a
    new [pma]. *)
Definition after_assign : pma :=
  {| _implicit_tree_height := 2; _segment_size := 2; _size := 0;
     _free_index_bitmap := [false; false; false; false];
     _storage := [0; 7; 0; 0] |}.


(** One key, 5, in slot 0. *)
Definition one_key : pma :=
  {| _implicit_tree_height := 2; _segment_size := 2; _size := 1;
     _free_index_bitmap := [true; false; false; false];
     _storage := [5; 0; 0; 0] |}.

(** Keys 5 and 6 filling the first segment. *)
Definition two_keys : pma :=
  {| _implicit_tree_height := 2; _segment_size := 2; _size := 2;
     _free_index_bitmap := [true; true; false; false];
     _storage := [5; 6; 0; 0] |}.

(** Key 1 in the first segment, key 7 in the second. *)
Definition split_keys : pma :=
  {| _implicit_tree_height := 2; _segment_size := 2; _size := 2;
     _free_index_bitmap := [true; false; true; false];
     _storage := [1; 0; 7; 0] |}.

(** Every slot occupied. *)
Definition full_keys : pma :=
  {| _implicit_tree_height := 2; _segment_size := 2; _size := 4;
     _free_index_bitmap := [true; true; true; true];
     _storage := [1; 2; 3; 4] |}.

(** ** Reference definitions, from the wording of the properties *)

(** A valid segment start: a multiple of segment_size() below
    capacity(). *)
Definition valid_segment_start (p : pma) (v : Z) : bool :=
  (v mod segment_size p =? 0) && (0 <=? v) && (v <? capacity p).

(** The position described for [position_to_insert(s, x)]: the smallest
    index of the segment [[s, s + segment_size())] holding a live key
    greater than [x], else one past the largest occupied index of the
    segment (the segment start when the segment is empty). *)
Definition key_at (p : pma) (i : Z) : Z :=
  default 0 (_storage p !! Z.to_nat i).

Definition expected_position (p : pma) (s x : Z) : Z :=
  let slots := seqZ s (segment_size p) in
  match filter (fun i => in_use p i && (x <? key_at p i) = true) slots with
  | i :: _ => i
  | [] =>
      match last (filter (fun i => in_use p i = true) slots) with
      | Some j => j + 1
      | None => s
      end
  end.

(** The scanner's precondition: [start] is a multiple of [length], and
    [length] is a power-of-two multiple of segment_size() that does not
    exceed capacity(). *)
Definition scanner_precondition (p : pma) (start length : Z) : bool :=
  negb (length =? 0) && (start mod length =? 0) &&
  existsb (fun k => length =? segment_size p * 2 ^ k) (seqZ 0 32) &&
  (length <=? capacity p).

(** Two states with the same metadata and vector lengths. *)
Record same_shape (p p' : pma) : Prop := {
  shape_height : _implicit_tree_height p' = _implicit_tree_height p;
  shape_segment : _segment_size p' = _segment_size p;
  shape_bitmap : length (_free_index_bitmap p') = length (_free_index_bitmap p);
  shape_storage : length (_storage p') = length (_storage p)
}.

(** Keys -9 and -3, in order, in slots 0 and 2. *)
Definition sorted_split : pma :=
  {| _implicit_tree_height := 2; _segment_size := 2; _size := 2;
     _free_index_bitmap := [true; false; true; false];
     _storage := [-9; 0; -3; 0] |}.

(** A full pma of capacity 16 holding the keys 1 to 16, with the height (log2 16 = 4) and the
    segment size (16 / 4 = 4) that [resize] gives that capacity. *)
Definition sixteen_full : pma :=
  {| _implicit_tree_height := 4; _segment_size := 4; _size := 16;
     _free_index_bitmap := replicate 16 true;
     _storage := seqZ 1 16 |}.

(** ** The layout computed by resize

    pma.cc:179-181: the new capacity, tree height and segment size, as
    [resize] computes them before it resizes the vectors and
    redistributes. *)
Definition resize_layout (p : pma) : result (Z * Z * Z) :=
  let new_capacity := i32 (Z.shiftl (capacity p) 1) in
  h ← log2_int new_capacity;
  if h =? 0 then Fault DivByZero
  else Ok (new_capacity, h, u32 (Z.quot new_capacity h)).

(** The state [resize] hands to [naive_rebalance(0, new_capacity)]. *)
Definition resized (p : pma) (layout : Z * Z * Z) : pma :=
  let '(new_capacity, h, s) := layout in
  {| _implicit_tree_height := h;
     _segment_size := s;
     _size := _size p;
     _free_index_bitmap :=
       vec_resize false (_free_index_bitmap p) (Z.to_nat new_capacity);
     _storage := vec_resize 0 (_storage p) (Z.to_nat new_capacity) |}.

(** ** Private helpers of pma.h (lines 228-243) *)

(** [next_power_of_2]: decrement, smear the top bit downwards, increment;
    all on a [uint32_t]. *)
Definition next_power_of_2 (v : Z) : Z :=
  let v := u32 (v - 1) in
  let v := Z.lor v (Z.shiftr v 1) in
  let v := Z.lor v (Z.shiftr v 2) in
  let v := Z.lor v (Z.shiftr v 4) in
  let v := Z.lor v (Z.shiftr v 8) in
  let v := Z.lor v (Z.shiftr v 16) in
  u32 (v + 1).

(** [is_power_of_2]: returns [v & (v - 1)] converted to [bool], that is,
    whether that value is non-zero. *)
Definition is_power_of_2 (v : Z) : bool :=
  negb (Z.land v (u32 (v - 1)) =? 0).

(** ** Further observations *)

(** Number of set bits in a list of occupancy bits. *)
Fixpoint count_true (bm : list bool) : Z :=
  match bm with
  | [] => 0
  | b :: bm' => (if b then 1 else 0) + count_true bm'
  end.

(** The part of a vector with indices in [[lo, lo + len)]. *)
Definition slice {A : Type} (v : list A) (lo len : nat) : list A :=
  take len (drop lo v).

(** A vector with the slots [[lo, lo + len)] overwritten by [d]. *)
Definition blank {A : Type} (d : A) (v : list A) (lo len : nat) : list A :=
  take lo v ++ replicate len d ++ drop (lo + len) v.

(** Index of the first occupied slot at or after position [from]. *)
Fixpoint first_occupied (bm : list bool) (from : nat) : option nat :=
  match bm with
  | [] => None
  | b :: bm' => if b then Some from else first_occupied bm' (S from)
  end.

(** The state a successful placement of [x] at [pos] produces. *)
Definition placed (p : pma) (pos x : Z) : pma :=
  {| _implicit_tree_height := _implicit_tree_height p;
     _segment_size := _segment_size p;
     _size := u32 (_size p + 1);
     _free_index_bitmap := <[Z.to_nat pos := true]> (_free_index_bitmap p);
     _storage := <[Z.to_nat pos := x]> (_storage p) |}.

(** [full_keys] after [clear_window(1, 2)]. *)
Definition full_keys_cleared : pma :=
  {| _implicit_tree_height := 2; _segment_size := 2; _size := 4;
     _free_index_bitmap := [true; false; false; true];
     _storage := [1; 0; 0; 4] |}.

(** What the inner loop of [segment_to_insert] does at the first
    occupied slot it meets, holding key [k]: [None] is the [break]. *)
Definition scan_verdict (p : pma) (x seg k : Z) : option Z :=
  if x >? k then None
  else if x =? k then Some seg
  else Some (u32 (seg - _segment_size p)).

(** One key, 9, in slot 2; slots 0 and 1 free. *)
Definition gap_key : pma :=
  {| _implicit_tree_height := 2; _segment_size := 2; _size := 1;
     _free_index_bitmap := [false; false; true; false];
     _storage := [0; 0; 9; 0] |}.

(** * Proofs *)

(** ** The error monad *)

Lemma bind_Ok {A B : Type} (r : result A) (k : A -> result B) (b : B) :
  (r ≫= k) = Ok b -> exists a, r = Ok a /\ k a = Ok b.
Proof.
  destruct r as [a| |]; simpl; intros E; try discriminate.
  exists a. split; [reflexivity | exact E].
Qed.

Lemma bind_not_Ok {A B : Type} (r : result A) (k : A -> result B) :
  (forall a, r <> Ok a) -> forall b, (r ≫= k) <> Ok b.
Proof.
  intros Hr b E. apply bind_Ok in E as (a & Ea & _). exact (Hr a Ea).
Qed.

Lemma not_completes {A : Type} (r : result A) :
  (forall a, r <> Ok a) -> ~ completes r.
Proof. intros Hr [a Ea]. exact (Hr a Ea). Qed.

(** Splits a hypothesis [(x ← r; k) = Ok b] into its two halves. *)
Ltac bind_inv H :=
  let a := fresh "a" in
  let E := fresh "E" in
  apply bind_Ok in H as (a & E & H).

(** ** States with no occupied slot *)

Lemma fresh_all_free p : fresh_shape p -> all_free p.
Proof.
  intros [_ _ _ Hb _]. unfold all_free. rewrite Hb.
  apply Forall_replicate. reflexivity.
Qed.

Lemma index_is_free_all_free p i r :
  all_free p -> index_is_free p i = Ok r -> r = true.
Proof.
  unfold all_free, index_is_free, vec_get. intros Hall E.
  destruct (in_range _ _); [| discriminate].
  destruct (_ !! _) as [b|] eqn:Hb; [| discriminate].
  rewrite Forall_lookup in Hall. rewrite (Hall _ _ Hb) in E.
  simpl in E. congruence.
Qed.

Lemma window_size_loop_all_free fuel p bound i sz r :
  all_free p -> window_size_loop fuel p bound i sz = Ok r -> r = sz.
Proof.
  intros Hall. revert i sz.
  induction fuel as [|fuel IH]; intros i sz E; simpl in E; [discriminate|].
  destruct (u32 i <? bound); [| congruence].
  bind_inv E. bind_inv E.
  rewrite (index_is_free_all_free _ _ _ Hall E0) in E.
  eauto.
Qed.

Lemma compact_loop_all_free fuel p bound i n r :
  all_free p -> compact_loop fuel p bound i n = Ok r -> r = (p, n).
Proof.
  intros Hall. revert i.
  induction fuel as [|fuel IH]; intros i E; simpl in E; [discriminate|].
  destruct (u32 i <? bound); [| congruence].
  bind_inv E.
  rewrite (index_is_free_all_free _ _ _ Hall E0) in E.
  bind_inv E. eauto.
Qed.

(** With no live key the window holds [size = 0] keys and the stride
    [length / size] divides by zero. *)
Lemma naive_rebalance_all_free fuel p window length :
  all_free p -> forall p', naive_rebalance fuel p window length <> Ok p'.
Proof.
  intros Hall p' E. unfold naive_rebalance in E.
  bind_inv E. apply (window_size_loop_all_free _ _ _ _ _ _ Hall) in E0.
  subst a. bind_inv E. destruct a as [p1 n].
  bind_inv E. change (u32 (i32 0) =? 0) with true in E. discriminate.
Qed.

(** The scan of [segment_to_insert] only stops at an occupied slot. *)
Lemma segment_scan_all_free fuel p x seg i :
  all_free p -> seg < _segment_size p ->
  forall r, segment_scan fuel p x seg i <> Ok r.
Proof.
  intros Hall Hseg. revert i.
  induction fuel as [|fuel IH]; intros i r E; simpl in E; [discriminate|].
  apply Z.ltb_lt in Hseg as Hb. rewrite Hb in E.
  bind_inv E.
  rewrite (index_is_free_all_free _ _ _ Hall E0) in E.
  exact (IH _ _ E).
Qed.

Lemma segment_to_insert_all_free fuel p x :
  all_free p -> 0 < _segment_size p ->
  forall r, segment_to_insert fuel p x <> Ok r.
Proof.
  intros Hall HS r. unfold segment_to_insert.
  destruct fuel as [|fuel]; simpl; [discriminate|].
  destruct (0 <? capacity p); [| discriminate].
  apply bind_not_Ok. intros a. apply segment_scan_all_free; assumption.
Qed.

Lemma insert_all_free fuel p x :
  all_free p -> 0 < _segment_size p ->
  forall p', insert fuel p x <> Ok p'.
Proof.
  intros Hall HS p'. unfold insert.
  apply bind_not_Ok. intros a. apply segment_to_insert_all_free; assumption.
Qed.

Lemma resize_all_free fuel p :
  all_free p -> forall p', resize fuel p <> Ok p'.
Proof.
  intros Hall p' E. unfold resize in E.
  bind_inv E. destruct (a =? 0); [discriminate|].
  revert E. apply naive_rebalance_all_free.
  unfold all_free, vec_resize; simpl.
  apply Forall_app. split.
  - apply Forall_take. exact Hall.
  - apply Forall_replicate. reflexivity.
Qed.

Lemma rebalance_all_free fuel p segment :
  all_free p -> forall p', rebalance fuel p segment <> Ok p'.
Proof.
  intros Hall p' E. unfold rebalance in E.
  bind_inv E. destruct a as [window length].
  bind_inv E. destruct a as [w l|].
  - exact (naive_rebalance_all_free _ _ _ _ Hall _ E).
  - exact (resize_all_free _ _ Hall _ E).
Qed.

(** ** What the completed operations preserve *)

Lemma store_fresh p i v p' :
  store p i v = Ok p' -> fresh_shape p -> fresh_shape p'.
Proof.
  unfold store, vec_set. intros E [H1 H2 H3 H4 H5].
  destruct (in_range _ _); simpl in E; [| discriminate].
  injection E as <-. split; simpl; try assumption.
  rewrite length_insert. exact H5.
Qed.

Lemma set_bit_false_fresh p i p' :
  set_bit p i false = Ok p' -> fresh_shape p -> fresh_shape p'.
Proof.
  unfold set_bit, vec_set. intros E [H1 H2 H3 H4 H5].
  destruct (in_range _ _); simpl in E; [| discriminate].
  injection E as <-. split; simpl; try assumption.
  rewrite H4. exact (insert_replicate false 4 (Z.to_nat i)).
Qed.

Lemma clear_window_loop_fresh fuel p bound i p' :
  clear_window_loop fuel p bound i = Ok p' -> fresh_shape p -> fresh_shape p'.
Proof.
  revert p i.
  induction fuel as [|fuel IH]; intros p i E Hp; simpl in E; [discriminate|].
  destruct (u32 i <? bound); [| congruence].
  bind_inv E. bind_inv E. bind_inv E.
  eapply IH; [exact E |].
  eapply set_bit_false_fresh; [exact E1 |].
  eapply store_fresh; eassumption.
Qed.

Lemma assign_at_fresh p n v p' :
  assign_at p n v = Ok p' -> fresh_shape p -> fresh_shape p'.
Proof. exact (store_fresh p n v p'). Qed.

Lemma pma_new_fresh : fresh_shape pma_new.
Proof. split; reflexivity. Qed.

Lemma public_step_fresh p p' :
  public_step p p' -> fresh_shape p -> fresh_shape p'.
Proof.
  intros Hstep Hp. pose proof (fresh_all_free _ Hp) as Hall.
  destruct Hstep as [p n v p' E | fuel p w l p' E | fuel p x p' E
                    | fuel p s p' E | fuel p w l p' E | fuel p p' E].
  - eapply assign_at_fresh; eassumption.
  - eapply clear_window_loop_fresh; eassumption.
  - exfalso. eapply insert_all_free; [exact Hall | | exact E].
    rewrite (fresh_segment _ Hp). lia.
  - exfalso. eapply rebalance_all_free; eassumption.
  - exfalso. eapply naive_rebalance_all_free; eassumption.
  - exfalso. eapply resize_all_free; eassumption.
Qed.

(** Every reachable state still has the constructor's shape: the only
    operations that complete are the two that write zeros or raw
    storage. *)
Lemma reachable_fresh p : reachable p -> fresh_shape p.
Proof.
  induction 1 as [| p p' _ IH Hstep].
  - exact pma_new_fresh.
  - eapply public_step_fresh; eassumption.
Qed.

Lemma fresh_index_is_free p i :
  fresh_shape p -> 0 <= i < 4 -> index_is_free p i = Ok true.
Proof.
  intros Hp Hi. unfold index_is_free. rewrite (fresh_bitmap _ Hp).
  assert (i = 0 \/ i = 1 \/ i = 2 \/ i = 3) as [-> | [-> | [-> | ->]]] by lia;
    reflexivity.
Qed.

(** ** Parity of the rebalancer's window lengths *)

Lemma even_u32 z : Z.even (u32 z) = Z.even z.
Proof.
  unfold Int32.to_uint, Int32.modulus.
  rewrite Z.mod_eq by lia.
  rewrite Z.even_sub, Z.even_mul.
  change (Z.even (2 ^ 32)) with true. simpl.
  destruct (Z.even z); reflexivity.
Qed.

Lemma window_capacity_even p h cap :
  1 <= h -> window_capacity p h = Ok cap -> Z.even cap = true.
Proof.
  unfold window_capacity. intros Hh E.
  destruct (_ && _); [| discriminate]. injection E as <-.
  rewrite even_u32, Z.shiftl_mul_pow2 by lia.
  replace h with (Z.succ (h - 1)) by lia.
  rewrite Z.pow_succ_r by lia.
  rewrite !Z.even_mul. simpl. apply orb_true_r.
Qed.

Lemma window_capacity_half_even p h cap :
  Z.even (_segment_size p) = true ->
  1 <= h -> window_capacity p h = Ok cap -> Z.even (cap / 2) = true.
Proof.
  unfold window_capacity. intros HS Hh E.
  destruct (_ && _); [| discriminate]. injection E as <-.
  apply Z.even_spec in HS as [a Ha].
  rewrite Z.shiftl_mul_pow2 by lia.
  replace h with (Z.succ (h - 1)) by lia.
  rewrite Z.pow_succ_r by lia.
  rewrite Ha.
  replace (2 * a * (2 * 2 ^ (h - 1))) with (4 * (a * 2 ^ (h - 1))) by ring.
  unfold Int32.to_uint, Int32.modulus.
  change (2 ^ 32) with (4 * 2 ^ 30).
  rewrite Z.mul_mod_distr_l by lia.
  replace (4 * ((a * 2 ^ (h - 1)) mod 2 ^ 30))
    with ((a * 2 ^ (h - 1)) mod 2 ^ 30 * 2 * 2) by ring.
  rewrite Z.div_mul by lia.
  rewrite Z.even_mul. apply orb_true_r.
Qed.

Lemma int_add_Ok a b r : int_add a b = Ok r -> r = a + b.
Proof.
  unfold int_add. destruct (_ && _); [| discriminate]. congruence.
Qed.

(** The test that guards [resize()] compares an even number with an odd
    one. *)
Lemma grow_test_false p l :
  Z.even (Z.of_nat (length (_storage p))) = true ->
  Z.even l = true ->
  (u32 (0 + l) =? u32 (capacity p - 1)) = false.
Proof.
  intros Hc Hl. apply Z.eqb_neq. intros E.
  apply (f_equal Z.even) in E.
  rewrite Z.add_0_l, !even_u32, Z.even_sub in E. unfold capacity in E.
  rewrite even_u32, Hc, Hl in E. discriminate.
Qed.

Lemma rebalance_walk_never_grows fuel p h w l :
  Z.even (_segment_size p) = true ->
  Z.even (Z.of_nat (length (_storage p))) = true ->
  Z.even l = true ->
  1 <= h ->
  rebalance_walk fuel p h w l <> Ok Grow.
Proof.
  intros HS Hc. revert h w l.
  induction fuel as [|fuel IH]; intros h w l Hl Hh E; simpl in E;
    [discriminate|].
  destruct (h <? _implicit_tree_height p); [| discriminate].
  bind_inv E. rename a into cap. bind_inv E. rename a into sz.
  destruct (cap =? 0); [discriminate|].
  destruct (negb _); [discriminate|].
  pose proof (window_capacity_even _ _ _ Hh E0) as Hcap.
  pose proof (window_capacity_half_even _ _ _ HS Hh E0) as Hhalf.
  destruct (w =? 0) eqn:Hw.
  - apply Z.eqb_eq in Hw. subst w.
    rewrite (grow_test_false _ _ Hc Hl) in E. simpl in E.
    bind_inv E. apply int_add_Ok in E2. subst a.
    revert E. apply IH; [| lia].
    rewrite even_u32, Z.even_add, Hl, Hcap. reflexivity.
  - simpl in E. bind_inv E. apply int_add_Ok in E2. subst a.
    destruct (u32 (w + l) =? u32 (capacity p - 1)).
    + revert E. apply IH; [exact Hl | lia].
    + revert E. apply IH; [| lia].
      rewrite even_u32, Z.even_add, Hl, Hhalf. reflexivity.
Qed.

Lemma rebalance_start_length_even p segment window length :
  rebalance_start p segment = Ok (window, length) -> Z.even length = true.
Proof.
  unfold rebalance_start. intros E. bind_inv E.
  destruct (u32 a =? 0); [discriminate|]. injection E as _ <-.
  rewrite even_u32, Z.even_mul. apply orb_true_r.
Qed.

(** ** Windows that start at index 0

    In the second loop of [naive_rebalance] the test [i >= window] is
    unsigned; with [window = 0] it cannot fail, and the loop only ends
    by indexing out of bounds. *)
Lemma spread_loop_from_zero fuel p gap i n :
  forall p', spread_loop fuel p 0 gap i n <> Ok p'.
Proof.
  revert p i n.
  induction fuel as [|fuel IH]; intros p i n p' E; simpl in E;
    [discriminate|].
  assert ((u32 i >=? 0) = true) as Hge.
  { apply Z.geb_le. unfold Int32.to_uint, Int32.modulus.
    apply Z.mod_pos_bound. lia. }
  rewrite Hge in E.
  do 7 bind_inv E. exact (IH _ _ _ _ E).
Qed.

Lemma naive_rebalance_from_zero fuel p length :
  forall p', naive_rebalance fuel p 0 length <> Ok p'.
Proof.
  intros p' E. unfold naive_rebalance in E.
  bind_inv E. bind_inv E. destruct a0 as [p1 n]. bind_inv E.
  destruct (u32 (i32 a) =? 0); [discriminate|].
  exact (spread_loop_from_zero _ _ _ _ _ _ E).
Qed.

Lemma resize_never_completes fuel p :
  forall p', resize fuel p <> Ok p'.
Proof.
  intros p' E. unfold resize in E. bind_inv E.
  destruct (a =? 0); [discriminate|].
  exact (naive_rebalance_from_zero _ _ _ _ E).
Qed.

(** ** Completed operations keep the metadata and the vector lengths

    This holds from every state, reachable or not: the only code that
    changes [_segment_size], [_implicit_tree_height] or the vector
    lengths is [resize], and no call of [resize] completes. *)

Lemma same_shape_refl p : same_shape p p.
Proof. split; reflexivity. Qed.

Lemma same_shape_trans p q r :
  same_shape p q -> same_shape q r -> same_shape p r.
Proof.
  intros [H1 H2 H3 H4] [K1 K2 K3 K4]. split; congruence.
Qed.

Lemma store_same_shape p i v p' : store p i v = Ok p' -> same_shape p p'.
Proof.
  unfold store, vec_set. intros E.
  destruct (in_range _ _); simpl in E; [| discriminate].
  injection E as <-. split; simpl; try reflexivity.
  apply length_insert.
Qed.

Lemma set_bit_same_shape p i b p' :
  set_bit p i b = Ok p' -> same_shape p p'.
Proof.
  unfold set_bit, vec_set. intros E.
  destruct (in_range _ _); simpl in E; [| discriminate].
  injection E as <-. split; simpl; try reflexivity.
  apply length_insert.
Qed.

Lemma flip_same_shape p i p' : flip p i = Ok p' -> same_shape p p'.
Proof.
  unfold flip. intros E. bind_inv E.
  exact (set_bit_same_shape _ _ _ _ E).
Qed.

Create HintDb shape.
#[local] Hint Resolve store_same_shape set_bit_same_shape flip_same_shape
  : shape.

(** Chains the shape facts of a straight-line sequence of updates. *)
Ltac shape_chain :=
  repeat (eapply same_shape_trans; [solve [eauto with shape] |]);
  apply same_shape_refl.

Lemma clear_window_loop_same_shape fuel p bound i p' :
  clear_window_loop fuel p bound i = Ok p' -> same_shape p p'.
Proof.
  revert p i.
  induction fuel as [|fuel IH]; intros p i E; simpl in E; [discriminate|].
  destruct (u32 i <? bound).
  - do 3 bind_inv E. apply IH in E. shape_chain.
  - injection E as <-. apply same_shape_refl.
Qed.

Lemma compact_loop_same_shape fuel p bound i n p' n' :
  compact_loop fuel p bound i n = Ok (p', n') -> same_shape p p'.
Proof.
  revert p i n.
  induction fuel as [|fuel IH]; intros p i n E; simpl in E; [discriminate|].
  destruct (u32 i <? bound).
  - bind_inv E. destruct a.
    + bind_inv E. exact (IH _ _ _ E).
    + destruct (n =? i).
      * do 2 bind_inv E. exact (IH _ _ _ E).
      * do 7 bind_inv E. apply IH in E. shape_chain.
  - injection E as <- _. apply same_shape_refl.
Qed.

Lemma spread_loop_same_shape fuel p window gap i n p' :
  spread_loop fuel p window gap i n = Ok p' -> same_shape p p'.
Proof.
  revert p i n.
  induction fuel as [|fuel IH]; intros p i n E; simpl in E; [discriminate|].
  destruct (u32 i >=? window).
  - do 7 bind_inv E. apply IH in E. shape_chain.
  - injection E as <-. apply same_shape_refl.
Qed.

Lemma naive_rebalance_same_shape fuel p window length p' :
  naive_rebalance fuel p window length = Ok p' -> same_shape p p'.
Proof.
  unfold naive_rebalance. intros E.
  bind_inv E. bind_inv E. destruct a0 as [p1 n]. bind_inv E.
  destruct (u32 (i32 a) =? 0); [discriminate|].
  apply compact_loop_same_shape in E1.
  apply spread_loop_same_shape in E.
  eapply same_shape_trans; eassumption.
Qed.

Lemma rebalance_same_shape fuel p segment p' :
  rebalance fuel p segment = Ok p' -> same_shape p p'.
Proof.
  unfold rebalance. intros E.
  bind_inv E. destruct a as [window length]. bind_inv E.
  destruct a as [w l|].
  - exact (naive_rebalance_same_shape _ _ _ _ _ E).
  - exfalso. exact (resize_never_completes _ _ _ E).
Qed.

Lemma insert_same_shape fuel p x p' :
  insert fuel p x = Ok p' -> same_shape p p'.
Proof.
  unfold insert. intros E.
  do 3 bind_inv E. destruct a1.
  - do 2 bind_inv E. injection E as <-.
    eapply same_shape_trans; [solve [eauto with shape] |].
    eapply same_shape_trans; [solve [eauto with shape] |].
    split; reflexivity.
  - bind_inv E. destruct (_segment_size p =? 0); [discriminate|].
    destruct (_ && _).
    + exact (rebalance_same_shape _ _ _ _ E).
    + injection E as <-. apply same_shape_refl.
Qed.

Lemma public_step_same_shape p p' : public_step p p' -> same_shape p p'.
Proof.
  intros [p0 n v p1 E | fuel p0 w l p1 E | fuel p0 x p1 E
         | fuel p0 s p1 E | fuel p0 w l p1 E | fuel p0 p1 E].
  - exact (store_same_shape _ _ _ _ E).
  - exact (clear_window_loop_same_shape _ _ _ _ _ E).
  - exact (insert_same_shape _ _ _ _ E).
  - exact (rebalance_same_shape _ _ _ _ E).
  - exact (naive_rebalance_same_shape _ _ _ _ _ E).
  - exfalso. exact (resize_never_completes _ _ _ E).
Qed.

(** ** Construction *)

(** C10: a default-constructed pma has capacity 4, size 0, segment size
    2, tree height 2, and every index below 4 is free. *)
Theorem default_constructor_observations (i : Z) (Hi : 0 <= i < 4) :
  capacity pma_new = 4 /\
  size pma_new = 0 /\
  segment_size pma_new = 2 /\
  tree_height pma_new = 2 /\
  index_is_free pma_new i = Ok true.
Proof.
  repeat split; try reflexivity.
  apply fresh_index_is_free; [exact pma_new_fresh | exact Hi].
Qed.

Lemma default_constructor_observations_at_3 :
  capacity pma_new = 4 /\
  size pma_new = 0 /\
  segment_size pma_new = 2 /\
  tree_height pma_new = 2 /\
  index_is_free pma_new 3 = Ok true.
Proof. apply (default_constructor_observations 3). lia. Defined.

(** ** Insertion *)

(** C1: insert(x) is meant to store x and increase size() by one from
    every reachable state, shifting keys when the chosen slot is
    occupied and retrying after a rebalance when the segment is full.
    The code does not: from every reachable state the call runs off the
    end of the bitmap inside [segment_to_insert] (index 4 on a new pma)
    and never completes; where the chosen slot is occupied (state
    [one_key], key 3) the call returns with the state unchanged, the
    shift being a TODO; and where the segment is full (state
    [two_keys], key 5) the rebalance faults and nothing is retried. *)
Theorem insert_fails_to_store (p : pma) (fuel : nat) (x : Z) :
  reachable p ->
  ~ completes (insert fuel p x) /\
  insert 8 pma_new x = Fault (OutOfBounds 4) /\
  insert 8 one_key 3 = Ok one_key /\
  insert 8 two_keys 5 = Fault (OutOfBounds (-1)).
Proof.
  intros Hr. apply reachable_fresh in Hr. split; [| split; [| split]].
  - apply not_completes, insert_all_free; [exact (fresh_all_free _ Hr) |].
    rewrite (fresh_segment _ Hr). lia.
  - vm_compute. reflexivity.
  - vm_compute. reflexivity.
  - vm_compute. reflexivity.
Qed.

Lemma insert_fails_to_store_on_new :
  ~ completes (insert 8 pma_new 0) /\
  insert 8 pma_new 0 = Fault (OutOfBounds 4) /\
  insert 8 one_key 3 = Ok one_key /\
  insert 8 two_keys 5 = Fault (OutOfBounds (-1)).
Proof. apply (insert_fails_to_store pma_new 8 0). exact reach_new. Defined.

(** ** Locator *)

(** C4: segment_to_insert(x) is meant to terminate and return a valid
    segment start.  The code does not: from every reachable state it
    reads the bitmap out of bounds (its inner loop tests [seg], not [i]);
    with a live key above x it returns [0 - segment_size] wrapped to
    32 bits, which is no index of the array; with every live key below
    x it reaches the end of the function without a return. *)
Theorem segment_to_insert_fails (p : pma) (fuel : nat) (x : Z) :
  reachable p ->
  ~ completes (segment_to_insert fuel p x) /\
  segment_to_insert 8 pma_new x = Fault (OutOfBounds 4) /\
  segment_to_insert 8 one_key 3 = Ok 4294967294 /\
  valid_segment_start one_key 4294967294 = false /\
  segment_to_insert 8 one_key 7 = Fault NoReturnValue.
Proof.
  intros Hr. apply reachable_fresh in Hr. split.
  - apply not_completes, segment_to_insert_all_free;
      [exact (fresh_all_free _ Hr) |].
    rewrite (fresh_segment _ Hr). lia.
  - repeat split; vm_compute; reflexivity.
Qed.

Lemma segment_to_insert_fails_on_new :
  ~ completes (segment_to_insert 8 pma_new 0) /\
  segment_to_insert 8 pma_new 0 = Fault (OutOfBounds 4) /\
  segment_to_insert 8 one_key 3 = Ok 4294967294 /\
  valid_segment_start one_key 4294967294 = false /\
  segment_to_insert 8 one_key 7 = Fault NoReturnValue.
Proof. apply (segment_to_insert_fails pma_new 8 0). exact reach_new. Defined.

(** C5: position_to_insert(s, x) is meant to return the smallest index
    of the segment starting at s that holds a live key above x, else one
    past the segment's largest occupied index.  The code's loop bound is
    [_segment_size - 1], whatever s is: for the second segment of a new
    pma (s = 2) it returns 0, an index outside the segment; and it never
    looks at the last slot of the first segment, so with keys 5 and 6 in
    slots 0 and 1 and x = 7 it returns the occupied slot 1, not 2. *)
Theorem position_to_insert_misses_segment :
  (forall x, position_to_insert 1 pma_new 2 x = Ok 0) /\
  (forall x, expected_position pma_new 2 x = 2) /\
  position_to_insert 2 two_keys 0 7 = Ok 1 /\
  expected_position two_keys 0 7 = 2 /\
  index_is_free two_keys 1 = Ok false.
Proof. repeat split; intros; vm_compute; reflexivity. Qed.

(** ** Rebalancer *)

(** C6: when the upward walk reaches the root window and it is still
    above its threshold, rebalance is meant to call resize, which
    doubles the capacity.  The code's test is
    [window + length == capacity() - 1]; with an even segment size and
    an even capacity the left side is even and the right side odd, so
    the walk never chooses resize.  On a full 4-slot pma the walk widens
    the window to length 8 instead, and the redistribution reads index 4
    out of bounds.  A call of resize does not complete either. *)
Theorem rebalance_never_resizes (fuel : nat) (p : pma)
    (segment window length : Z) :
  Z.even (segment_size p) = true ->
  Z.even (Z.of_nat (List.length (_storage p))) = true ->
  rebalance_start p segment = Ok (window, length) ->
  rebalance_walk fuel p 1 window length <> Ok Grow /\
  rebalance_walk 8 full_keys 1 0 4 = Ok (Redistribute 0 8) /\
  rebalance 8 full_keys 0 = Fault (OutOfBounds 4) /\
  ~ completes (resize fuel p).
Proof.
  intros HS Hc Hstart. split; [| split; [| split]].
  - apply rebalance_walk_never_grows; try assumption; [| lia].
    eapply rebalance_start_length_even. exact Hstart.
  - vm_compute. reflexivity.
  - vm_compute. reflexivity.
  - apply not_completes, resize_never_completes.
Qed.

Lemma rebalance_never_resizes_when_full :
  rebalance_walk 8 full_keys 1 0 4 <> Ok Grow /\
  rebalance_walk 8 full_keys 1 0 4 = Ok (Redistribute 0 8) /\
  rebalance 8 full_keys 0 = Fault (OutOfBounds 4) /\
  ~ completes (resize 8 full_keys).
Proof.
  apply (rebalance_never_resizes 8 full_keys 0 0 4); reflexivity.
Defined.

(** C8: every window passed to window_size is meant to be aligned to its
    length, with a length that is a power-of-two multiple of
    segment_size() within capacity(), so that no index at or above
    capacity() is read.  The code's rebalance(2) on a new pma starts
    from window 2 with length 4 (it tests
    [segment % number_of_segments()]), which is not aligned, and
    window_size reads index 4; on a full pma the walk from segment 0
    ends with the window (0, 8), twice the capacity, which
    naive_rebalance passes to window_size. *)
Theorem scanner_precondition_violated :
  rebalance_start pma_new 2 = Ok (2, 4) /\
  scanner_precondition pma_new 2 4 = false /\
  window_size 8 pma_new 2 4 = Fault (OutOfBounds 4) /\
  rebalance 8 pma_new 2 = Fault (OutOfBounds 4) /\
  rebalance_start full_keys 0 = Ok (0, 4) /\
  rebalance_walk 8 full_keys 1 0 4 = Ok (Redistribute 0 8) /\
  scanner_precondition full_keys 0 8 = false /\
  window_size 8 full_keys 0 8 = Fault (OutOfBounds 4).
Proof. repeat split; vm_compute; reflexivity. Qed.

(** C9: naive_rebalance(w, L) is meant to work inside [[w, w + L)] and
    leave the other slots alone.  The code compacts to [next_index = 0],
    not to w: with key 1 in slot 0 and key 7 in slot 2,
    naive_rebalance(2, 2) overwrites slot 0, outside the window, and the
    live key 1 is replaced by 0.  A window that starts at 0 is never
    redistributed to completion. *)
Theorem naive_rebalance_writes_outside_window :
  naive_rebalance 8 split_keys 2 2 =
    Ok {| _implicit_tree_height := 2; _segment_size := 2; _size := 2;
          _free_index_bitmap := [true; false; false; true];
          _storage := [0; 0; 0; 7] |} /\
  at_index split_keys 0 = Ok 1 /\
  index_is_free split_keys 0 = Ok false /\
  live_keys split_keys = [1; 7] /\
  (forall fuel p length, ~ completes (naive_rebalance fuel p 0 length)).
Proof.
  split; [| split; [| split; [| split]]].
  - vm_compute. reflexivity.
  - reflexivity.
  - reflexivity.
  - reflexivity.
  - intros fuel p length. apply not_completes, naive_rebalance_from_zero.
Qed.

(** ** Invariants *)

(** Splits a conjunction into its conjuncts, and nothing else. *)
Ltac conjuncts := repeat match goal with |- _ /\ _ => split end.



Lemma six_is_no_power_of_two : ~ is_power_of_two 6.
Proof.
  intros [k [Hk E]].
  destruct (Z_lt_le_dec k 3) as [Hlt | Hge].
  - assert (k = 0 \/ k = 1 \/ k = 2) as [-> | [-> | ->]] by lia;
      discriminate.
  - pose proof (Z.pow_le_mono_r 2 3 k ltac:(lia) Hge) as Hpow.
    change (2 ^ 3) with 8 in Hpow. lia.
Qed.

Lemma resize_uses_layout fuel p :
  resize fuel p =
    (layout ← resize_layout p;
     naive_rebalance fuel (resized p layout) 0 (layout.1.1)).
Proof.
  unfold resize, resize_layout.
  destruct (log2_int _) as [h | f |]; try reflexivity.
  simpl. destruct (h =? 0); reflexivity.
Qed.


(** * Further properties of the code *)

(** ** Machine integers in range *)

Lemma u32_small z : 0 <= z < Int32.modulus -> u32 z = z.
Proof. intros Hz. unfold Int32.to_uint. apply Z.mod_small. exact Hz. Qed.

Lemma i32_small z : 0 <= z < Int32.half_modulus -> i32 z = z.
Proof.
  intros Hz. unfold Int32.to_int.
  rewrite Z.mod_small by (unfold Int32.modulus, Int32.half_modulus in *; lia).
  destruct Hz as [_ Hz]. apply Z.ltb_lt in Hz. rewrite Hz. reflexivity.
Qed.

Lemma int_add_small a b :
  - Int32.half_modulus <= a + b < Int32.half_modulus ->
  int_add a b = Ok (a + b).
Proof.
  intros [H1 H2]. unfold int_add.
  apply Z.leb_le in H1. apply Z.ltb_lt in H2. rewrite H1, H2. reflexivity.
Qed.

Lemma vec_get_lookup {A : Type} (v : list A) (i : nat) (a : A) :
  v !! i = Some a -> vec_get v (Z.of_nat i) = Ok a.
Proof.
  intros Hl. unfold vec_get, in_range.
  apply lookup_lt_Some in Hl as Hlt.
  replace (0 <=? Z.of_nat i) with true by (symmetry; apply Z.leb_le; lia).
  replace (Z.of_nat i <? Z.of_nat (length v)) with true
    by (symmetry; apply Z.ltb_lt; lia).
  simpl. rewrite Nat2Z.id, Hl. reflexivity.
Qed.

Lemma vec_get_past_end {A : Type} (v : list A) (i : Z) :
  Z.of_nat (length v) <= i -> vec_get v i = Fault (OutOfBounds i).
Proof.
  intros Hi. unfold vec_get, in_range.
  replace (i <? Z.of_nat (length v)) with false
    by (symmetry; apply Z.ltb_ge; lia).
  rewrite andb_false_r. reflexivity.
Qed.

Lemma vec_set_in_range {A : Type} (v : list A) (i : nat) (a : A) :
  (i < length v)%nat -> vec_set v (Z.of_nat i) a = Ok (<[i := a]> v).
Proof.
  intros Hlt. unfold vec_set, in_range.
  replace (0 <=? Z.of_nat i) with true by (symmetry; apply Z.leb_le; lia).
  replace (Z.of_nat i <? Z.of_nat (length v)) with true
    by (symmetry; apply Z.ltb_lt; lia).
  simpl. rewrite Nat2Z.id. reflexivity.
Qed.

(** ** Window scanner *)

Lemma slice_cons {A : Type} (v : list A) (i n : nat) (a : A) :
  v !! i = Some a -> slice v i (S n) = a :: slice v (S i) n.
Proof.
  intros Hl. unfold slice. rewrite (drop_S _ _ _ Hl). reflexivity.
Qed.

Lemma index_is_free_lookup p (i : nat) b :
  _free_index_bitmap p !! i = Some b ->
  Z.of_nat i < Int32.modulus ->
  index_is_free p (Z.of_nat i) = Ok (negb b).
Proof.
  intros Hl Hi. unfold index_is_free.
  rewrite u32_small by lia. rewrite (vec_get_lookup _ _ _ Hl). reflexivity.
Qed.

Lemma bind_Ok_l {A B : Type} (a : A) (k : A -> result B) :
  (Ok a ≫= k) = k a.
Proof. reflexivity. Qed.

Lemma window_size_loop_step fuel p bound i sz :
  window_size_loop (S fuel) p bound i sz =
    if u32 i <? bound then
      free ← index_is_free p i;
      i' ← int_add i 1;
      window_size_loop fuel p bound i'
        (if free : bool then sz else u32 (sz + 1))
    else Ok sz.
Proof. reflexivity. Qed.

Lemma window_size_loop_count p (n : nat) :
  forall (fuel i : nat) (sz : Z),
    (i + n <= length (_free_index_bitmap p))%nat ->
    Z.of_nat (length (_free_index_bitmap p)) < Int32.half_modulus ->
    (n < fuel)%nat ->
    0 <= sz -> sz + Z.of_nat n < Int32.modulus ->
    window_size_loop fuel p (Z.of_nat (i + n)) (Z.of_nat i) sz =
      Ok (sz + count_true (slice (_free_index_bitmap p) i n)).
Proof.
  unfold Int32.half_modulus, Int32.modulus.
  induction n as [|n IH]; intros fuel i sz Hlen Hsmall Hfuel Hsz Hwrap;
    (destruct fuel as [|fuel]; [lia|]); rewrite window_size_loop_step;
    rewrite u32_small by (unfold Int32.modulus; lia).
  - replace (Z.of_nat i <? Z.of_nat (i + 0)) with false
      by (symmetry; apply Z.ltb_ge; lia).
    unfold slice. rewrite take_0. simpl. f_equal. lia.
  - replace (Z.of_nat i <? Z.of_nat (i + S n)) with true
      by (symmetry; apply Z.ltb_lt; lia).
    destruct (lookup_lt_is_Some_2 (_free_index_bitmap p) i) as [b Hb]; [lia|].
    rewrite (index_is_free_lookup _ _ _ Hb) by (unfold Int32.modulus; lia).
    rewrite bind_Ok_l.
    rewrite int_add_small by (unfold Int32.half_modulus; lia).
    rewrite bind_Ok_l, (slice_cons _ _ _ _ Hb).
    replace (Z.of_nat i + 1) with (Z.of_nat (S i)) by lia.
    replace (i + S n)%nat with (S i + n)%nat by lia.
    destruct b; cbn [negb count_true].
    + rewrite u32_small by (unfold Int32.modulus; lia).
      rewrite IH by lia. f_equal. lia.
    + rewrite IH by lia. reflexivity.
Qed.

Lemma count_true_bounds bm : 0 <= count_true bm <= Z.of_nat (length bm).
Proof.
  induction bm as [|b bm IH]; simpl; [lia|]. destruct b; lia.
Qed.

Lemma count_true_zero bm :
  count_true bm = 0 <-> Forall (fun b => b = false) bm.
Proof.
  induction bm as [|b bm IH]; simpl.
  - split; [constructor | reflexivity].
  - pose proof (count_true_bounds bm). destruct b; split; intros H0.
    + lia.
    + inversion H0; discriminate.
    + constructor; [reflexivity | apply IH; lia].
    + inversion H0; subst. apply IH in H4. lia.
Qed.

Lemma window_size_in_range (p : pma) (fuel window length : nat) :
  (window + length <= List.length (_free_index_bitmap p))%nat ->
  Z.of_nat (List.length (_free_index_bitmap p)) < Int32.half_modulus ->
  (length < fuel)%nat ->
  window_size fuel p (Z.of_nat window) (Z.of_nat length) =
    Ok (count_true (slice (_free_index_bitmap p) window length)).
Proof.
  intros Hlen Hsmall Hfuel. unfold window_size.
  unfold Int32.half_modulus in Hsmall.
  rewrite u32_small by (unfold Int32.modulus; lia).
  rewrite i32_small by (unfold Int32.half_modulus; lia).
  rewrite <- Nat2Z.inj_add.
  rewrite window_size_loop_count; try assumption;
    unfold Int32.modulus; try lia.
  reflexivity.
Qed.

(** X1: over a window that lies inside the bitmap, window_size returns
    the number of occupied slots of the window (given fuel for one test
    more than the window has slots). *)
Theorem window_size_counts_occupied (p : pma) (fuel window length : nat) :
  (window + length <= List.length (_free_index_bitmap p))%nat ->
  Z.of_nat (List.length (_free_index_bitmap p)) < Int32.half_modulus ->
  (length < fuel)%nat ->
  window_size fuel p (Z.of_nat window) (Z.of_nat length) =
    Ok (count_true (slice (_free_index_bitmap p) window length)).
Proof. exact (window_size_in_range p fuel window length). Qed.

Lemma window_size_counts_occupied_split_keys :
  window_size 5 split_keys (Z.of_nat 0) (Z.of_nat 4) =
    Ok (count_true (slice (_free_index_bitmap split_keys) 0 4)).
Proof.
  apply (window_size_counts_occupied split_keys 5 0 4);
    simpl; unfold Int32.half_modulus; lia.
Defined.

Lemma index_is_free_past_end p (i : Z) :
  Z.of_nat (length (_free_index_bitmap p)) <= i < Int32.modulus ->
  index_is_free p i = Fault (OutOfBounds i).
Proof.
  intros Hi. unfold index_is_free. rewrite u32_small by lia.
  rewrite vec_get_past_end by lia. reflexivity.
Qed.

Lemma window_size_loop_overrun p (n : nat) :
  forall (fuel i : nat) (bound sz : Z),
    (i + n = length (_free_index_bitmap p))%nat ->
    Z.of_nat (length (_free_index_bitmap p)) < Int32.half_modulus ->
    Z.of_nat (length (_free_index_bitmap p)) < bound ->
    (n < fuel)%nat ->
    window_size_loop fuel p bound (Z.of_nat i) sz =
      Fault (OutOfBounds (Z.of_nat (length (_free_index_bitmap p)))).
Proof.
  unfold Int32.half_modulus.
  induction n as [|n IH]; intros fuel i bound sz Hlen Hsmall Hb Hfuel;
    (destruct fuel as [|fuel]; [lia|]); rewrite window_size_loop_step;
    rewrite u32_small by (unfold Int32.modulus; lia);
    (replace (Z.of_nat i <? bound) with true
       by (symmetry; apply Z.ltb_lt; lia)).
  - rewrite index_is_free_past_end by (unfold Int32.modulus; lia).
    replace i with (length (_free_index_bitmap p)) by lia. reflexivity.
  - destruct (lookup_lt_is_Some_2 (_free_index_bitmap p) i) as [b Hl]; [lia|].
    rewrite (index_is_free_lookup _ _ _ Hl) by (unfold Int32.modulus; lia).
    rewrite bind_Ok_l.
    rewrite int_add_small by (unfold Int32.half_modulus; lia).
    rewrite bind_Ok_l.
    replace (Z.of_nat i + 1) with (Z.of_nat (S i)) by lia.
    apply IH; lia.
Qed.

(** X2: a window that starts inside the bitmap and ends past it makes
    window_size index the bitmap at its length: the call does not
    return a count, it reads one bit out of bounds. *)
Theorem window_size_overruns_bitmap (p : pma) (fuel window length : nat) :
  (window <= List.length (_free_index_bitmap p) < window + length)%nat ->
  Z.of_nat (List.length (_free_index_bitmap p)) < Int32.half_modulus ->
  Z.of_nat (window + length) < Int32.modulus ->
  (List.length (_free_index_bitmap p) - window < fuel)%nat ->
  window_size fuel p (Z.of_nat window) (Z.of_nat length) =
    Fault (OutOfBounds (Z.of_nat (List.length (_free_index_bitmap p)))).
Proof.
  intros Hlen Hsmall Hwrap Hfuel. unfold window_size.
  rewrite <- Nat2Z.inj_add. rewrite u32_small by lia.
  rewrite i32_small by (unfold Int32.half_modulus in *; lia).
  apply (window_size_loop_overrun p
           (List.length (_free_index_bitmap p) - window)); try lia.
Qed.

Lemma window_size_overruns_bitmap_full_keys :
  window_size 5 full_keys (Z.of_nat 2) (Z.of_nat 4) =
    Fault (OutOfBounds (Z.of_nat (List.length (_free_index_bitmap full_keys)))).
Proof.
  apply (window_size_overruns_bitmap full_keys 5 2 4);
    simpl; unfold Int32.half_modulus, Int32.modulus; lia.
Defined.

(** ** clear_window *)

Lemma blank_insert {A : Type} (d : A) (v : list A) (i n : nat) :
  (i < length v)%nat ->
  blank d (<[i := d]> v) (S i) n = blank d v i (S n).
Proof.
  intros Hi. unfold blank.
  rewrite (take_S_r _ _ d) by (apply list_lookup_insert_eq; exact Hi).
  rewrite take_insert_ge by lia.
  rewrite drop_insert_lt by lia.
  rewrite <- app_assoc. simpl.
  replace (S (i + n)) with (i + S n)%nat by lia. reflexivity.
Qed.

Lemma blank_nothing {A : Type} (d : A) (v : list A) (i : nat) :
  blank d v i 0 = v.
Proof.
  unfold blank. simpl. rewrite Nat.add_0_r. apply take_drop.
Qed.

Lemma length_blank {A : Type} (d : A) (v : list A) (i n : nat) :
  (i + n <= length v)%nat -> length (blank d v i n) = length v.
Proof.
  intros Hi. unfold blank.
  rewrite !length_app, length_take, length_replicate, length_drop. lia.
Qed.

Lemma slice_blank {A : Type} (d : A) (v : list A) (i n : nat) :
  (i + n <= length v)%nat -> slice (blank d v i n) i n = replicate n d.
Proof.
  intros Hi. unfold slice, blank.
  rewrite drop_app_length' by (rewrite length_take; lia).
  rewrite take_app_length' by (rewrite length_replicate; reflexivity).
  reflexivity.
Qed.

Lemma clear_window_loop_step fuel p bound i :
  clear_window_loop (S fuel) p bound i =
    if u32 i <? bound then
      p1 ← store p i 0;
      p2 ← set_bit p1 i false;
      i' ← int_add i 1;
      clear_window_loop fuel p2 bound i'
    else Ok p.
Proof. reflexivity. Qed.

Lemma clear_window_loop_blank (n : nat) :
  forall (fuel i : nat) (p : pma),
    (i + n <= length (_storage p))%nat ->
    (i + n <= length (_free_index_bitmap p))%nat ->
    Z.of_nat (i + n) < Int32.half_modulus ->
    (n < fuel)%nat ->
    clear_window_loop fuel p (Z.of_nat (i + n)) (Z.of_nat i) =
      Ok (set_bitmap (set_storage p (blank 0 (_storage p) i n))
                     (blank false (_free_index_bitmap p) i n)).
Proof.
  unfold Int32.half_modulus.
  induction n as [|n IH]; intros fuel i p Hst Hbm Hsmall Hfuel;
    (destruct fuel as [|fuel]; [lia|]); rewrite clear_window_loop_step;
    rewrite u32_small by (unfold Int32.modulus; lia).
  - replace (Z.of_nat i <? Z.of_nat (i + 0)) with false
      by (symmetry; apply Z.ltb_ge; lia).
    rewrite !blank_nothing. destruct p; reflexivity.
  - replace (Z.of_nat i <? Z.of_nat (i + S n)) with true
      by (symmetry; apply Z.ltb_lt; lia).
    unfold store, set_bit.
    rewrite vec_set_in_range by lia. rewrite !bind_Ok_l.
    cbn [set_storage _free_index_bitmap].
    rewrite vec_set_in_range by lia. rewrite !bind_Ok_l.
    rewrite int_add_small by (unfold Int32.half_modulus; lia).
    rewrite bind_Ok_l.
    replace (Z.of_nat i + 1) with (Z.of_nat (S i)) by lia.
    replace (i + S n)%nat with (S i + n)%nat by lia.
    rewrite IH; cbn [set_bitmap set_storage _storage _free_index_bitmap
                     _size _segment_size _implicit_tree_height];
      rewrite ?length_insert; try lia.
    rewrite !blank_insert by lia. reflexivity.
Qed.

Lemma clear_window_in_range (p : pma) (fuel window length : nat) :
  (window + length <= List.length (_storage p))%nat ->
  (window + length <= List.length (_free_index_bitmap p))%nat ->
  Z.of_nat (window + length) < Int32.half_modulus ->
  (length < fuel)%nat ->
  clear_window fuel p (Z.of_nat window) (Z.of_nat length) =
    Ok {| _implicit_tree_height := _implicit_tree_height p;
          _segment_size := _segment_size p;
          _size := _size p;
          _free_index_bitmap :=
            blank false (_free_index_bitmap p) window length;
          _storage := blank 0 (_storage p) window length |}.
Proof.
  intros Hst Hbm Hsmall Hfuel. unfold clear_window.
  unfold Int32.half_modulus in Hsmall.
  rewrite <- Nat2Z.inj_add.
  rewrite u32_small by (unfold Int32.modulus; lia).
  rewrite i32_small by (unfold Int32.half_modulus; lia).
  rewrite clear_window_loop_blank; try assumption; reflexivity.
Qed.

(** X3: over a window inside both vectors, clear_window completes; it
    writes 0 and a clear bit to every slot of the window, leaves every
    other slot as it was, and leaves the element count [_size]
    untouched. *)
Theorem clear_window_blanks_window (p : pma) (fuel window length : nat) :
  (window + length <= List.length (_storage p))%nat ->
  (window + length <= List.length (_free_index_bitmap p))%nat ->
  Z.of_nat (window + length) < Int32.half_modulus ->
  (length < fuel)%nat ->
  clear_window fuel p (Z.of_nat window) (Z.of_nat length) =
    Ok {| _implicit_tree_height := _implicit_tree_height p;
          _segment_size := _segment_size p;
          _size := _size p;
          _free_index_bitmap :=
            blank false (_free_index_bitmap p) window length;
          _storage := blank 0 (_storage p) window length |}.
Proof. exact (clear_window_in_range p fuel window length). Qed.

Lemma clear_window_blanks_window_full_keys :
  clear_window 3 full_keys (Z.of_nat 1) (Z.of_nat 2) =
    Ok {| _implicit_tree_height := _implicit_tree_height full_keys;
          _segment_size := _segment_size full_keys;
          _size := _size full_keys;
          _free_index_bitmap :=
            blank false (_free_index_bitmap full_keys) 1 2;
          _storage := blank 0 (_storage full_keys) 1 2 |}.
Proof.
  apply (clear_window_blanks_window full_keys 3 1 2);
    simpl; unfold Int32.half_modulus; lia.
Defined.

Lemma count_true_app bm1 bm2 :
  count_true (bm1 ++ bm2) = count_true bm1 + count_true bm2.
Proof.
  induction bm1 as [|b bm1 IH]; simpl; [reflexivity|]. rewrite IH. lia.
Qed.

Lemma count_true_replicate_false n : count_true (replicate n false) = 0.
Proof. induction n as [|n IH]; simpl; [reflexivity | exact IH]. Qed.

Lemma count_true_blank bm (i n : nat) :
  count_true (blank false bm i n) =
    count_true bm - count_true (slice bm i n).
Proof.
  unfold blank, slice.
  pose proof (take_drop n (drop i bm)) as Hmid. rewrite drop_drop in Hmid.
  assert (count_true bm =
          count_true (take i bm)
          + (count_true (take n (drop i bm))
             + count_true (drop (i + n) bm))) as Hsplit.
  { rewrite <- !count_true_app, Hmid, take_drop. reflexivity. }
  rewrite !count_true_app, count_true_replicate_false. lia.
Qed.

(** X4: clear_window does not keep the element count in step with the
    bitmap: it removes the window's occupied slots from the bitmap
    (a later window_size over the window returns 0) while size() stays
    what it was. *)
Theorem clear_window_forgets_size (p p' : pma) (fuel window length : nat) :
  (window + length <= List.length (_storage p))%nat ->
  (window + length <= List.length (_free_index_bitmap p))%nat ->
  Z.of_nat (List.length (_free_index_bitmap p)) < Int32.half_modulus ->
  (length < fuel)%nat ->
  clear_window fuel p (Z.of_nat window) (Z.of_nat length) = Ok p' ->
  size p' = size p /\
  count_true (_free_index_bitmap p') =
    count_true (_free_index_bitmap p)
    - count_true (slice (_free_index_bitmap p) window length) /\
  window_size fuel p' (Z.of_nat window) (Z.of_nat length) = Ok 0.
Proof.
  intros Hst Hbm Hsmall Hfuel E.
  rewrite clear_window_in_range in E by (try assumption; lia).
  injection E as <-. split; [reflexivity | split].
  - apply count_true_blank.
  - rewrite window_size_in_range;
      cbn [_free_index_bitmap]; rewrite ?length_blank by lia;
      try assumption.
    rewrite slice_blank by lia.
    rewrite count_true_replicate_false. reflexivity.
Qed.

Lemma clear_window_forgets_size_full_keys :
  size full_keys_cleared = size full_keys /\
  count_true (_free_index_bitmap full_keys_cleared) =
    count_true (_free_index_bitmap full_keys)
    - count_true (slice (_free_index_bitmap full_keys) 1 2) /\
  window_size 3 full_keys_cleared (Z.of_nat 1) (Z.of_nat 2) = Ok 0.
Proof.
  apply (clear_window_forgets_size full_keys full_keys_cleared 3 1 2);
    try (simpl; unfold Int32.half_modulus; lia).
  reflexivity.
Defined.

(** ** segment_to_insert on arbitrary states *)

Lemma u32_neg s :
  0 < s <= Int32.modulus -> u32 (0 - s) = Int32.modulus - s.
Proof.
  intros Hs. unfold Int32.to_uint. symmetry.
  apply (Z.mod_unique_pos _ _ (-1)); lia.
Qed.

Lemma vec_get_inv {A : Type} (v : list A) (i : nat) (a : A) :
  vec_get v (Z.of_nat i) = Ok a -> v !! i = Some a.
Proof.
  unfold vec_get. destruct (in_range _ _); [| discriminate].
  rewrite Nat2Z.id. destruct (v !! i); congruence.
Qed.

Lemma index_is_free_inv p (i : nat) free :
  Z.of_nat i < Int32.modulus ->
  index_is_free p (Z.of_nat i) = Ok free ->
  _free_index_bitmap p !! i = Some (negb free).
Proof.
  intros Hi E. unfold index_is_free in E.
  rewrite u32_small in E by lia. bind_inv E.
  apply vec_get_inv in E0. injection E as <-.
  rewrite negb_involutive. exact E0.
Qed.

Lemma first_occupied_skip bm (i : nat) :
  bm !! i = Some false ->
  first_occupied (drop i bm) i = first_occupied (drop (S i) bm) (S i).
Proof. intros Hl. rewrite (drop_S _ _ _ Hl). reflexivity. Qed.

Lemma first_occupied_hit bm (i : nat) :
  bm !! i = Some true -> first_occupied (drop i bm) i = Some i.
Proof. intros Hl. rewrite (drop_S _ _ _ Hl). reflexivity. Qed.

Lemma first_occupied_ge bm (from j : nat) :
  first_occupied bm from = Some j -> (from <= j < from + length bm)%nat.
Proof.
  revert from. induction bm as [|b bm IH]; intros from E; simpl in E;
    [discriminate|].
  destruct b.
  - injection E as <-. simpl. lia.
  - apply IH in E. simpl. lia.
Qed.

Lemma segment_scan_step fuel p x seg i :
  segment_scan (S fuel) p x seg i =
    if seg <? _segment_size p then
      free ← index_is_free p i;
      if free : bool then segment_scan fuel p x seg (u32 (i + 1))
      else
        k ← vec_get (_storage p) i;
        if x >? k then Ok None
        else if x =? k then Ok (Some seg)
        else Ok (Some (u32 (seg - _segment_size p)))
    else Ok None.
Proof. reflexivity. Qed.

Section Locator.
Variable p : pma.
Hypothesis segment_bound : 0 < _segment_size p <= Int32.half_modulus.
Hypothesis storage_bound :
  Z.of_nat (length (_storage p)) <= Int32.half_modulus.
Hypothesis bitmap_bound :
  Z.of_nat (length (_free_index_bitmap p)) < Int32.modulus.

Lemma segment_scan_inv x seg fuel :
  forall (i : nat) r,
    seg < _segment_size p ->
    (i <= length (_free_index_bitmap p))%nat ->
    segment_scan fuel p x seg (Z.of_nat i) = Ok r ->
    exists (j : nat) k,
      first_occupied (drop i (_free_index_bitmap p)) i = Some j /\
      _storage p !! j = Some k /\
      r = scan_verdict p x seg k.
Proof.
  induction fuel as [|fuel IH]; intros i r Hseg Hi E; [discriminate|].
  rewrite segment_scan_step in E.
  apply Z.ltb_lt in Hseg as Hb. rewrite Hb in E.
  bind_inv E. apply index_is_free_inv in E0; [| lia].
  apply lookup_lt_Some in E0 as Hlt.
  destruct a; simpl in E0.
  - rewrite u32_small in E by lia.
    replace (Z.of_nat i + 1) with (Z.of_nat (S i)) in E by lia.
    apply IH in E as (j & k & Hj & Hk & Hr); [| assumption | lia].
    exists j, k. rewrite (first_occupied_skip _ _ E0). auto.
  - bind_inv E. apply vec_get_inv in E1.
    exists i, a. rewrite (first_occupied_hit _ _ E0).
    repeat split; [exact E1 |]. unfold scan_verdict.
    destruct (x >? a); [congruence |]. destruct (x =? a); congruence.
Qed.

Lemma segment_scan_fwd x seg (n : nat) :
  forall (fuel i j : nat) k,
    seg < _segment_size p ->
    first_occupied (drop i (_free_index_bitmap p)) i = Some j ->
    _storage p !! j = Some k ->
    (j = i + n)%nat -> (n < fuel)%nat ->
    segment_scan fuel p x seg (Z.of_nat i) = Ok (scan_verdict p x seg k).
Proof.
  induction n as [|n IH]; intros fuel i j k Hseg Hj Hk Hn Hfuel;
    (destruct fuel as [|fuel]; [lia|]); rewrite segment_scan_step;
    apply Z.ltb_lt in Hseg as Hb; rewrite Hb;
    apply first_occupied_ge in Hj as Hrange; rewrite length_drop in Hrange;
    (destruct (lookup_lt_is_Some_2 (_free_index_bitmap p) i) as [b Hl];
       [lia|]);
    rewrite (index_is_free_lookup _ _ _ Hl) by lia; rewrite bind_Ok_l;
    destruct b; cbn [negb].
  - rewrite (first_occupied_hit _ _ Hl) in Hj. injection Hj as <-.
    rewrite (vec_get_lookup _ _ _ Hk), bind_Ok_l. unfold scan_verdict.
    destruct (x >? k); [reflexivity |]. destruct (x =? k); reflexivity.
  - rewrite (first_occupied_skip _ _ Hl) in Hj.
    apply first_occupied_ge in Hj. lia.
  - rewrite (first_occupied_hit _ _ Hl) in Hj. injection Hj as <-. lia.
  - rewrite (first_occupied_skip _ _ Hl) in Hj.
    rewrite u32_small by lia.
    replace (Z.of_nat i + 1) with (Z.of_nat (S i)) by lia.
    apply (IH fuel (S i) j k); try assumption; lia.
Qed.

(** Past the first segment the inner loop is skipped, and the outer
    loop runs to the end of the array, where there is no [return]. *)
Lemma segment_loop_past_first x fuel :
  forall seg,
    _segment_size p <= seg ->
    forall v, segment_loop fuel p x seg <> Ok v.
Proof.
  unfold Int32.half_modulus, Int32.modulus in *.
  induction fuel as [|fuel IH]; intros seg Hseg v E; simpl in E;
    [discriminate|].
  destruct (seg <? capacity p) eqn:Hcap; [| discriminate].
  apply Z.ltb_lt in Hcap. unfold capacity in Hcap.
  rewrite u32_small in Hcap by (unfold Int32.modulus; lia).
  bind_inv E. destruct fuel as [|fuel]; [discriminate|].
  rewrite segment_scan_step in E0.
  replace (seg <? _segment_size p) with false in E0
    by (symmetry; apply Z.ltb_ge; lia).
  injection E0 as <-.
  revert E. apply IH.
  rewrite u32_small by (unfold Int32.modulus; lia). lia.
Qed.

Lemma segment_loop_past_first_fuel x (n : nat) :
  forall fuel seg,
    _segment_size p <= seg ->
    Z.of_nat (length (_storage p)) <= seg + Z.of_nat n * _segment_size p ->
    (n + 1 < fuel)%nat ->
    segment_loop fuel p x seg = Fault NoReturnValue.
Proof.
  unfold Int32.half_modulus, Int32.modulus in *.
  induction n as [|n IH]; intros fuel seg Hseg Hend Hfuel;
    (destruct fuel as [|fuel]; [lia|]); simpl.
  - replace (seg <? capacity p) with false; [reflexivity|].
    symmetry. apply Z.ltb_ge. unfold capacity.
    rewrite u32_small by (unfold Int32.modulus; lia). lia.
  - destruct (seg <? capacity p) eqn:Hcap; [| reflexivity].
    apply Z.ltb_lt in Hcap. unfold capacity in Hcap.
    rewrite u32_small in Hcap by (unfold Int32.modulus; lia).
    destruct fuel as [|fuel]; [lia|].
    rewrite segment_scan_step.
    replace (seg <? _segment_size p) with false
      by (symmetry; apply Z.ltb_ge; lia).
    rewrite bind_Ok_l.
    apply IH; rewrite ?u32_small by (unfold Int32.modulus; lia); lia.
Qed.

Lemma segment_to_insert_inv x fuel v :
  segment_to_insert fuel p x = Ok v ->
  exists (j : nat) k,
    first_occupied (_free_index_bitmap p) 0 = Some j /\
    _storage p !! j = Some k /\
    x <= k /\
    v = if x =? k then 0 else Int32.modulus - _segment_size p.
Proof.
  unfold segment_to_insert. intros E.
  destruct fuel as [|fuel]; simpl in E; [discriminate|].
  destruct (0 <? capacity p); [| discriminate].
  bind_inv E.
  apply (segment_scan_inv x 0 fuel 0%nat) in E0 as (j & k & Hj & Hk & Hr);
    [| lia | lia].
  exists j, k. rewrite drop_0 in Hj. unfold scan_verdict in Hr.
  destruct (x >? k) eqn:Hgt.
  - subst a. exfalso. revert E. apply segment_loop_past_first.
    rewrite u32_small by (unfold Int32.half_modulus, Int32.modulus in *; lia).
    lia.
  - assert (x <= k) by (rewrite Z.gtb_ltb in Hgt; apply Z.ltb_ge in Hgt; lia).
    destruct (x =? k); subst a; injection E as <-;
      repeat split; try assumption.
    apply u32_neg.
    unfold Int32.half_modulus, Int32.modulus in *; lia.
Qed.

End Locator.

(** X5: whenever segment_to_insert returns, the first occupied slot of
    the whole array holds a key k with x <= k, and the value returned is
    0 when x = k and 2^32 - segment_size() when x < k.  No other value
    is ever returned; in particular a later segment never is. *)
Theorem segment_to_insert_returns_only (p : pma) (fuel : nat) (x v : Z) :
  0 < _segment_size p <= Int32.half_modulus ->
  Z.of_nat (length (_storage p)) <= Int32.half_modulus ->
  Z.of_nat (length (_free_index_bitmap p)) < Int32.modulus ->
  segment_to_insert fuel p x = Ok v ->
  exists (j : nat) k,
    first_occupied (_free_index_bitmap p) 0 = Some j /\
    _storage p !! j = Some k /\
    x <= k /\
    v = if x =? k then 0 else Int32.modulus - _segment_size p.
Proof.
  intros HS Hst Hbm E.
  exact (segment_to_insert_inv p HS Hst Hbm x fuel v E).
Qed.

Lemma segment_to_insert_returns_only_one_key :
  exists (j : nat) k,
    first_occupied (_free_index_bitmap one_key) 0 = Some j /\
    _storage one_key !! j = Some k /\
    3 <= k /\
    4294967294 = if 3 =? k then 0 else Int32.modulus - _segment_size one_key.
Proof.
  apply (segment_to_insert_returns_only one_key 8 3 4294967294);
    try (simpl; unfold Int32.half_modulus, Int32.modulus; lia).
  vm_compute. reflexivity.
Defined.

Lemma segment_to_insert_fwd (p : pma) (fuel j : nat) (x k : Z) :
  0 < _segment_size p <= Int32.half_modulus ->
  Z.of_nat (length (_storage p)) <= Int32.half_modulus ->
  Z.of_nat (length (_free_index_bitmap p)) < Int32.modulus ->
  first_occupied (_free_index_bitmap p) 0 = Some j ->
  _storage p !! j = Some k ->
  x <= k ->
  (j + 1 < fuel)%nat ->
  segment_to_insert fuel p x =
    Ok (if x =? k then 0 else Int32.modulus - _segment_size p).
Proof.
  intros HS Hst Hbm Hj Hk Hx Hfuel. unfold segment_to_insert.
  destruct fuel as [|fuel]; [lia|]. simpl.
  apply lookup_lt_Some in Hk as Hlt.
  replace (0 <? capacity p) with true.
  2:{ symmetry. apply Z.ltb_lt. unfold capacity.
      rewrite u32_small
        by (unfold Int32.half_modulus, Int32.modulus in *; lia). lia. }
  assert (segment_scan fuel p x 0 0 = Ok (scan_verdict p x 0 k)) as Hscan.
  { apply (segment_scan_fwd p Hbm x 0 j fuel 0%nat j k);
      try assumption; lia. }
  rewrite Hscan, bind_Ok_l. unfold scan_verdict.
  replace (x >? k) with false
    by (symmetry; rewrite Z.gtb_ltb; apply Z.ltb_ge; lia).
  destruct (x =? k); [reflexivity |].
  rewrite u32_neg by (unfold Int32.half_modulus, Int32.modulus in *; lia).
  reflexivity.
Qed.

(** X6: when the first occupied slot of the array holds a key at or
    above x, segment_to_insert returns (with fuel for the free slots
    before it): 0 if the key equals x, 2^32 - segment_size() if it is
    larger. *)
Theorem segment_to_insert_first_key (p : pma) (fuel j : nat) (x k : Z) :
  0 < _segment_size p <= Int32.half_modulus ->
  Z.of_nat (length (_storage p)) <= Int32.half_modulus ->
  Z.of_nat (length (_free_index_bitmap p)) < Int32.modulus ->
  first_occupied (_free_index_bitmap p) 0 = Some j ->
  _storage p !! j = Some k ->
  x <= k ->
  (j + 1 < fuel)%nat ->
  segment_to_insert fuel p x =
    Ok (if x =? k then 0 else Int32.modulus - _segment_size p).
Proof. exact (segment_to_insert_fwd p fuel j x k). Qed.

Lemma segment_to_insert_first_key_split_keys :
  segment_to_insert 2 split_keys 1 =
    Ok (if 1 =? 1 then 0 else Int32.modulus - _segment_size split_keys).
Proof.
  apply (segment_to_insert_first_key split_keys 2 0 1 1);
    try (simpl; unfold Int32.half_modulus, Int32.modulus; lia);
    reflexivity.
Defined.

(** X7: when the first occupied slot of the array holds a key below x,
    neither segment_to_insert nor insert ever completes: the search
    leaves the first segment, skips every other one and reaches the end
    of the function, which has no return statement. *)
Theorem insert_above_first_key_has_no_return
    (p : pma) (fuel j : nat) (x k : Z) :
  0 < _segment_size p <= Int32.half_modulus ->
  Z.of_nat (length (_storage p)) <= Int32.half_modulus ->
  Z.of_nat (length (_free_index_bitmap p)) < Int32.modulus ->
  first_occupied (_free_index_bitmap p) 0 = Some j ->
  _storage p !! j = Some k ->
  k < x ->
  (forall fuel', ~ completes (segment_to_insert fuel' p x)) /\
  (forall fuel', ~ completes (insert fuel' p x)) /\
  ((length (_storage p) + j + 3 < fuel)%nat ->
   segment_to_insert fuel p x = Fault NoReturnValue /\
   insert fuel p x = Fault NoReturnValue).
Proof.
  intros HS Hst Hbm Hj Hk Hx.
  assert (forall fuel' v, segment_to_insert fuel' p x <> Ok v) as Hnever.
  { intros fuel' v E.
    apply (segment_to_insert_inv p HS Hst Hbm) in E
      as (j' & k' & Hj' & Hk' & Hle & _).
    rewrite Hj in Hj'. injection Hj' as <-. rewrite Hk in Hk'.
    injection Hk' as <-. lia. }
  split; [| split].
  - intros fuel'. apply not_completes, Hnever.
  - intros fuel'. apply not_completes. unfold insert.
    apply bind_not_Ok. apply Hnever.
  - intros Hfuel.
    assert (segment_to_insert fuel p x = Fault NoReturnValue) as Hseg.
    { unfold segment_to_insert. destruct fuel as [|fuel]; [lia|]. simpl.
      destruct (0 <? capacity p); [| reflexivity].
      assert (segment_scan fuel p x 0 0 = Ok (scan_verdict p x 0 k))
        as Hscan.
      { apply (segment_scan_fwd p Hbm x 0 j fuel 0%nat j k);
          try assumption; lia. }
      rewrite Hscan, bind_Ok_l. unfold scan_verdict.
      replace (x >? k) with true
        by (symmetry; rewrite Z.gtb_ltb; apply Z.ltb_lt; lia).
      apply (segment_loop_past_first_fuel p HS Hst x
               (length (_storage p))).
      - rewrite u32_small
          by (unfold Int32.half_modulus, Int32.modulus in *; lia). lia.
      - rewrite u32_small
          by (unfold Int32.half_modulus, Int32.modulus in *; lia). nia.
      - lia. }
    split; [exact Hseg |]. unfold insert. rewrite Hseg. reflexivity.
Qed.

Lemma insert_above_first_key_has_no_return_one_key :
  (forall fuel', ~ completes (segment_to_insert fuel' one_key 7)) /\
  (forall fuel', ~ completes (insert fuel' one_key 7)) /\
  ((length (_storage one_key) + 0 + 3 < 8)%nat ->
   segment_to_insert 8 one_key 7 = Fault NoReturnValue /\
   insert 8 one_key 7 = Fault NoReturnValue).
Proof.
  apply (insert_above_first_key_has_no_return one_key 8 0 7 5);
    try (simpl; unfold Int32.half_modulus, Int32.modulus; lia);
    reflexivity.
Defined.

(** ** position_to_insert on arbitrary states *)

Lemma u32_range z : 0 <= u32 z < Int32.modulus.
Proof. unfold Int32.to_uint. apply Z.mod_pos_bound. reflexivity. Qed.

Lemma position_loop_bound p x fuel :
  forall i pos r,
    0 <= i ->
    0 <= pos <= u32 (_segment_size p - 1) ->
    position_loop fuel p x i pos = Ok r ->
    0 <= r <= u32 (_segment_size p - 1).
Proof.
  pose proof (u32_range (_segment_size p - 1)) as HB.
  induction fuel as [|fuel IH]; intros i pos r Hi Hpos E; simpl in E;
    [discriminate|].
  destruct (i <? u32 (_segment_size p - 1)) eqn:Hlt.
  - apply Z.ltb_lt in Hlt.
    assert (u32 (i + 1) = i + 1) as Hnext by (apply u32_small; lia).
    bind_inv E. destruct a.
    + apply (IH _ _ _ (proj1 (u32_range _)) Hpos E).
    + bind_inv E. destruct (x =? a).
      * apply (IH _ _ _ (proj1 (u32_range _))) in E; [exact E |].
        rewrite Hnext. lia.
      * injection E as <-. destruct (x >? a); [rewrite Hnext |]; lia.
  - injection E as <-. exact Hpos.
Qed.



(** ** rebalance of the first segment *)

Lemma rebalance_walk_from_zero p fuel :
  forall h l pl,
    rebalance_walk fuel p h 0 l = Ok pl ->
    pl = Grow \/ exists l', pl = Redistribute 0 l'.
Proof.
  induction fuel as [|fuel IH]; intros h l pl E; simpl in E; [discriminate|].
  destruct (h <? _implicit_tree_height p).
  - do 2 bind_inv E. destruct (a =? 0); [discriminate|].
    destruct (negb _).
    + injection E as <-. right. eexists. reflexivity.
    + match type of E with
      | context [if ?c then Ok Grow else _] => destruct c
      end.
      * injection E as <-. left. reflexivity.
      * bind_inv E. exact (IH _ _ _ E).
  - injection E as <-. right. eexists. reflexivity.
Qed.

Lemma rebalance_zero_never_completes fuel p :
  forall p', rebalance fuel p 0 <> Ok p'.
Proof.
  intros p' E. unfold rebalance in E. bind_inv E.
  destruct a as [window length]. unfold rebalance_start in E0.
  bind_inv E0. destruct (u32 a =? 0) eqn:Hn; [discriminate|].
  apply Z.eqb_neq in Hn.
  change (u32 0) with 0 in E0. rewrite Z.mod_0_l in E0 by exact Hn.
  simpl in E0. injection E0 as <- <-.
  bind_inv E. apply rebalance_walk_from_zero in E0 as [-> | [l' ->]].
  - exact (resize_never_completes _ _ _ E).
  - exact (naive_rebalance_from_zero _ _ _ _ E).
Qed.

(** X9: rebalance(0) never completes, from any state: the walk keeps the
    window at index 0, and both ways out of it, naive_rebalance(0, _)
    and resize(), index a vector out of bounds or divide by zero. *)
Theorem rebalance_of_first_segment_never_completes (fuel : nat) (p : pma) :
  ~ completes (rebalance fuel p 0).
Proof. apply not_completes, rebalance_zero_never_completes. Qed.

(** ** insert on arbitrary states *)

Lemma udt_leaf_exceeds_zero p :
  _implicit_tree_height p <> 0 ->
  Qle_bool (upper_density_threshold p 0) (inject_Z 0) = false.
Proof.
  intros HH.
  assert (upper_density_threshold p 0 == 1)%Q as Heq.
  { unfold upper_density_threshold, ROOT_UPPER_DENSITY, LEAF_UPPER_DENSITY.
    rewrite Z.sub_0_r. field.
    intros Hz. unfold Qeq in Hz. simpl in Hz. lia. }
  destruct (Qle_bool _ _) eqn:Hle; [| reflexivity].
  apply Qle_bool_iff in Hle. rewrite Heq in Hle.
  unfold Qle in Hle. simpl in Hle. lia.
Qed.

Lemma window_size_wrapped_segment p fuel :
  0 < _segment_size p < Int32.modulus ->
  window_size (S fuel) p (Int32.modulus - _segment_size p)
    (_segment_size p) = Ok 0.
Proof.
  intros HS. unfold window_size.
  replace (Int32.modulus - _segment_size p + _segment_size p)
    with Int32.modulus by lia.
  change (u32 Int32.modulus) with 0. simpl.
  replace (u32 _ <? 0) with false; [reflexivity |].
  symmetry. apply Z.ltb_ge. apply u32_range.
Qed.

Lemma insert_density_test_wrapped p :
  0 < _segment_size p ->
  negb (_implicit_tree_height p =? 0)
  && Qle_bool (upper_density_threshold p 0)
       (inject_Z (0 / _segment_size p)) = false.
Proof.
  intros HS. rewrite Z.div_0_l by lia.
  destruct (_implicit_tree_height p =? 0) eqn:HH; [reflexivity |].
  apply Z.eqb_neq in HH. rewrite (udt_leaf_exceeds_zero _ HH). reflexivity.
Qed.

Lemma placement p pos x :
  0 <= pos < Int32.modulus ->
  index_is_free p pos = Ok true ->
  forall p1 p2,
    store p pos x = Ok p1 -> flip p1 pos = Ok p2 ->
    set_size p2 (u32 (_size p2 + 1)) = placed p pos x.
Proof.
  intros Hpos Hfree p1 p2 E1 E2.
  unfold index_is_free in Hfree. rewrite u32_small in Hfree by lia.
  bind_inv Hfree. injection Hfree as Ha.
  apply negb_true_iff in Ha. subst a.
  unfold store, vec_set in E1.
  destruct (in_range (_storage p) pos); simpl in E1; [| discriminate].
  injection E1 as <-.
  unfold flip in E2. cbn [set_storage _free_index_bitmap] in E2.
  rewrite E in E2. rewrite bind_Ok_l in E2.
  unfold vec_set in E2.
  destruct (in_range (_free_index_bitmap p) pos); simpl in E2;
    [| discriminate].
  injection E2 as <-. reflexivity.
Qed.

Lemma insert_completed_cases (p p' : pma) (fuel : nat) (x : Z) :
  0 < _segment_size p <= Int32.half_modulus ->
  Z.of_nat (length (_storage p)) <= Int32.half_modulus ->
  Z.of_nat (length (_free_index_bitmap p)) < Int32.modulus ->
  insert fuel p x = Ok p' ->
  p' = p \/
  exists pos, 0 <= pos < segment_size p /\
              index_is_free p pos = Ok true /\ p' = placed p pos x.
Proof.
  intros HS Hst Hbm E. unfold insert in E.
  bind_inv E. rename a into segment, E0 into Eseg.
  bind_inv E. rename a into pos, E0 into Epos.
  bind_inv E. rename a into free, E0 into Efree.
  apply (segment_to_insert_inv p HS Hst Hbm) in Eseg
    as (j & k & _ & _ & _ & Hseg).
  unfold position_to_insert in Epos.
  apply (position_loop_bound _ _ _ _ _ _ (proj1 (u32_range _))) in Epos.
  2:{ pose proof (u32_range (_segment_size p - 1)). lia. }
  rewrite u32_small in Epos
    by (unfold Int32.half_modulus, Int32.modulus in *; lia).
  destruct free.
  - do 2 bind_inv E. injection E as <-. right. exists pos.
    split; [unfold segment_size; lia |]. split; [exact Efree |].
    eapply placement; try eassumption.
    unfold Int32.half_modulus, Int32.modulus in *; lia.
  - bind_inv E. rename a into sz, E0 into Esz.
    destruct (_segment_size p =? 0); [discriminate |].
    destruct (x =? k); subst segment.
    + destruct (_ && _).
      * exfalso. exact (rebalance_zero_never_completes _ _ _ E).
      * injection E as <-. left. reflexivity.
    + destruct fuel as [|fuel]; [discriminate |].
      rewrite window_size_wrapped_segment in Esz
        by (unfold Int32.half_modulus, Int32.modulus in *; lia).
      injection Esz as <-.
      rewrite insert_density_test_wrapped in E by lia.
      injection E as <-. left. reflexivity.
Qed.

(** X10: every insert that completes either leaves the pma exactly as
    it was (x is not stored) or writes x into one free slot of the
    first segment, sets that slot's bit and increments the size; no
    completed insert moves a key, rebalances or resizes. *)
Theorem insert_completes_without_moving_keys
    (p p' : pma) (fuel : nat) (x : Z) :
  0 < _segment_size p <= Int32.half_modulus ->
  Z.of_nat (length (_storage p)) <= Int32.half_modulus ->
  Z.of_nat (length (_free_index_bitmap p)) < Int32.modulus ->
  insert fuel p x = Ok p' ->
  p' = p \/
  exists pos, 0 <= pos < segment_size p /\
              index_is_free p pos = Ok true /\ p' = placed p pos x.
Proof. exact (insert_completed_cases p p' fuel x). Qed.

Lemma insert_completes_without_moving_keys_one_key :
  one_key = one_key \/
  exists pos, 0 <= pos < segment_size one_key /\
              index_is_free one_key pos = Ok true /\
              one_key = placed one_key pos 3.
Proof.
  apply (insert_completes_without_moving_keys one_key one_key 8 3);
    try (simpl; unfold Int32.half_modulus, Int32.modulus; lia).
  vm_compute. reflexivity.
Defined.

Lemma position_to_insert_wrapped_loop p fuel x :
  0 < _segment_size p <= Int32.half_modulus ->
  position_loop (S fuel) p x (u32 (Int32.modulus - _segment_size p)) 0 = Ok 0.
Proof.
  intros HS. simpl.
  rewrite !u32_small by (unfold Int32.half_modulus, Int32.modulus in *; lia).
  replace (_ <? _) with false; [reflexivity |].
  symmetry. apply Z.ltb_ge.
  unfold Int32.half_modulus, Int32.modulus in *. lia.
Qed.

Lemma position_to_insert_wrapped p fuel x :
  0 < _segment_size p <= Int32.half_modulus ->
  position_to_insert (S fuel) p (Int32.modulus - _segment_size p) x = Ok 0.
Proof.
  intros HS. unfold position_to_insert. simpl.
  rewrite !u32_small by (unfold Int32.half_modulus, Int32.modulus in *; lia).
  replace (_ <? _) with false; [reflexivity |].
  symmetry. apply Z.ltb_ge.
  unfold Int32.half_modulus, Int32.modulus in *. lia.
Qed.

(** X11: when slot 0 is free and the first occupied slot holds a key
    above x, insert(x) completes: x is written to slot 0, the slot is
    marked in use, size grows by one, and x becomes the first of the
    live keys, the others keeping their order. *)
Theorem insert_below_first_key_takes_slot_zero
    (p : pma) (fuel j : nat) (x k : Z) :
  0 < _segment_size p <= Int32.half_modulus ->
  Z.of_nat (length (_storage p)) <= Int32.half_modulus ->
  Z.of_nat (length (_free_index_bitmap p)) < Int32.modulus ->
  first_occupied (_free_index_bitmap p) 0 = Some j ->
  (0 < j)%nat ->
  _storage p !! j = Some k ->
  x < k ->
  (j + 1 < fuel)%nat ->
  insert fuel p x = Ok (placed p 0 x) /\
  live_keys (placed p 0 x) = x :: live_keys p /\
  size (placed p 0 x) = u32 (size p + 1).
Proof.
  intros HS Hst Hbm Hj Hpos Hk Hx Hfuel.
  assert (segment_to_insert fuel p x =
          Ok (Int32.modulus - _segment_size p)) as Hseg.
  { rewrite (segment_to_insert_fwd p fuel j x k) by (try assumption; lia).
    replace (x =? k) with false by (symmetry; apply Z.eqb_neq; lia).
    reflexivity. }
  destruct fuel as [|fuel]; [lia |].
  pose proof (position_to_insert_wrapped p fuel x HS) as Hp0.
  unfold insert. rewrite Hseg, bind_Ok_l, Hp0, bind_Ok_l.
  clear Hseg Hp0.
  destruct p as [h s n bm st].
  cbn [_free_index_bitmap _storage _segment_size _size
       _implicit_tree_height] in *.
  destruct bm as [|b bm]; [discriminate |].
  destruct b; [simpl in Hj; injection Hj as <-; lia |].
  destruct st as [|k0 st]; [discriminate |].
  split; [| split]; reflexivity.
Qed.

Lemma insert_below_first_key_takes_slot_zero_example :
  insert 4 (mk_pma 2 2 1 [false; false; true; false] [0; 0; 9; 0]) 4 =
    Ok (placed (mk_pma 2 2 1 [false; false; true; false] [0; 0; 9; 0]) 0 4) /\
  live_keys
    (placed (mk_pma 2 2 1 [false; false; true; false] [0; 0; 9; 0]) 0 4) =
    4 :: live_keys (mk_pma 2 2 1 [false; false; true; false] [0; 0; 9; 0]) /\
  size (placed (mk_pma 2 2 1 [false; false; true; false] [0; 0; 9; 0]) 0 4) =
    u32 (size (mk_pma 2 2 1 [false; false; true; false] [0; 0; 9; 0]) + 1).
Proof.
  apply (insert_below_first_key_takes_slot_zero
           (mk_pma 2 2 1 [false; false; true; false] [0; 0; 9; 0]) 4 2 4 9);
    try (simpl; unfold Int32.half_modulus, Int32.modulus; lia);
    reflexivity.
Defined.

(** X12: when slot 0 is occupied by a key above x, insert(x) completes
    and changes nothing: x is not stored and size() is not
    incremented. *)
Theorem insert_below_slot_zero_is_dropped
    (p : pma) (fuel : nat) (x k : Z) :
  0 < _segment_size p <= Int32.half_modulus ->
  Z.of_nat (length (_storage p)) <= Int32.half_modulus ->
  Z.of_nat (length (_free_index_bitmap p)) < Int32.modulus ->
  _free_index_bitmap p !! 0%nat = Some true ->
  _storage p !! 0%nat = Some k ->
  x < k ->
  (1 < fuel)%nat ->
  insert fuel p x = Ok p.
Proof.
  intros HS Hst Hbm Hb Hk Hx Hfuel.
  assert (first_occupied (_free_index_bitmap p) 0 = Some 0%nat) as Hj.
  { destruct (_free_index_bitmap p) as [|b bm]; [discriminate |].
    injection Hb as ->. reflexivity. }
  assert (segment_to_insert fuel p x =
          Ok (Int32.modulus - _segment_size p)) as Hseg.
  { rewrite (segment_to_insert_fwd p fuel 0 x k) by (try assumption; lia).
    replace (x =? k) with false by (symmetry; apply Z.eqb_neq; lia).
    reflexivity. }
  destruct fuel as [|fuel]; [lia |].
  unfold insert.
  rewrite Hseg, bind_Ok_l, (position_to_insert_wrapped p fuel x HS), bind_Ok_l.
  assert (index_is_free p 0 = Ok false) as Hfree
    by (apply (index_is_free_lookup p 0%nat true Hb); reflexivity).
  rewrite Hfree, bind_Ok_l.
  rewrite window_size_wrapped_segment
    by (unfold Int32.half_modulus, Int32.modulus in *; lia).
  rewrite bind_Ok_l.
  replace (_segment_size p =? 0) with false
    by (symmetry; apply Z.eqb_neq; lia).
  rewrite insert_density_test_wrapped by lia. reflexivity.
Qed.

Lemma insert_below_slot_zero_is_dropped_two_keys :
  insert 2 two_keys 1 = Ok two_keys.
Proof.
  apply (insert_below_slot_zero_is_dropped two_keys 2 1 5);
    try (simpl; unfold Int32.half_modulus, Int32.modulus; lia);
    reflexivity.
Defined.

(** ** Capacity never changes *)

(** X13: from any state, a public call that completes leaves
    capacity(), segment_size() and tree_height() as they were, and both
    vectors at their length: the pma never grows or shrinks. *)
Theorem completed_calls_never_change_capacity (p p' : pma) :
  public_step p p' ->
  capacity p' = capacity p /\
  segment_size p' = segment_size p /\
  tree_height p' = tree_height p /\
  length (_free_index_bitmap p') = length (_free_index_bitmap p).
Proof.
  intros Hstep. apply public_step_same_shape in Hstep as Hs.
  destruct Hs as [H1 H2 H3 H4].
  unfold capacity, segment_size, tree_height. rewrite H4. auto.
Qed.

Lemma completed_calls_never_change_capacity_example :
  capacity after_assign = capacity pma_new /\
  segment_size after_assign = segment_size pma_new /\
  tree_height after_assign = tree_height pma_new /\
  length (_free_index_bitmap after_assign) =
    length (_free_index_bitmap pma_new).
Proof.
  apply (completed_calls_never_change_capacity pma_new after_assign).
  apply (step_assign pma_new 1 7). reflexivity.
Defined.

(** ** naive_rebalance of an empty window *)

Lemma compact_loop_step fuel p bound i next_index :
  compact_loop (S fuel) p bound i next_index =
    if u32 i <? bound then
      free ← index_is_free p i;
      if free : bool then
        i' ← int_add i 1;
        compact_loop fuel p bound i' next_index
      else if next_index =? i then
        n' ← int_add next_index 1;
        i' ← int_add i 1;
        compact_loop fuel p bound i' n'
      else
        k ← vec_get (_storage p) i;
        p1 ← store p next_index k;
        p2 ← flip p1 next_index;
        p3 ← store p2 i 0;
        p4 ← flip p3 i;
        n' ← int_add next_index 1;
        i' ← int_add i 1;
        compact_loop fuel p4 bound i' n'
    else Ok (p, next_index).
Proof. reflexivity. Qed.

Lemma compact_loop_free_window p (n : nat) :
  forall (fuel i : nat) (next_index : Z),
    (i + n <= length (_free_index_bitmap p))%nat ->
    Z.of_nat (length (_free_index_bitmap p)) < Int32.half_modulus ->
    count_true (slice (_free_index_bitmap p) i n) = 0 ->
    (n < fuel)%nat ->
    compact_loop fuel p (Z.of_nat (i + n)) (Z.of_nat i) next_index =
      Ok (p, next_index).
Proof.
  unfold Int32.half_modulus.
  induction n as [|n IH]; intros fuel i nx Hlen Hsmall Hfree Hfuel;
    (destruct fuel as [|fuel]; [lia|]); rewrite compact_loop_step;
    rewrite u32_small by (unfold Int32.modulus; lia).
  - replace (Z.of_nat i <? Z.of_nat (i + 0)) with false
      by (symmetry; apply Z.ltb_ge; lia).
    reflexivity.
  - replace (Z.of_nat i <? Z.of_nat (i + S n)) with true
      by (symmetry; apply Z.ltb_lt; lia).
    destruct (lookup_lt_is_Some_2 (_free_index_bitmap p) i) as [b Hb]; [lia|].
    rewrite (slice_cons _ _ _ _ Hb) in Hfree. cbn [count_true] in Hfree.
    pose proof (count_true_bounds (slice (_free_index_bitmap p) (S i) n)).
    destruct b; [lia |].
    rewrite (index_is_free_lookup _ _ _ Hb) by (unfold Int32.modulus; lia).
    rewrite bind_Ok_l. cbn [negb].
    rewrite int_add_small by (unfold Int32.half_modulus; lia).
    rewrite bind_Ok_l.
    replace (Z.of_nat i + 1) with (Z.of_nat (S i)) by lia.
    replace (i + S n)%nat with (S i + n)%nat by lia.
    apply IH; try assumption; lia.
Qed.

Lemma naive_rebalance_empty_window
    (p : pma) (fuel window length : nat) :
  (window + length <= List.length (_free_index_bitmap p))%nat ->
  Z.of_nat (List.length (_free_index_bitmap p)) < Int32.half_modulus ->
  count_true (slice (_free_index_bitmap p) window length) = 0 ->
  (length < fuel)%nat ->
  naive_rebalance fuel p (Z.of_nat window) (Z.of_nat length) =
    Fault DivByZero.
Proof.
  intros Hlen Hsmall Hfree Hfuel. unfold naive_rebalance.
  rewrite window_size_in_range by assumption.
  rewrite Hfree, bind_Ok_l.
  unfold Int32.half_modulus in Hsmall.
  rewrite <- Nat2Z.inj_add.
  rewrite (u32_small (Z.of_nat (window + length)))
    by (unfold Int32.modulus; lia).
  rewrite (i32_small (Z.of_nat window)) by (unfold Int32.half_modulus; lia).
  rewrite compact_loop_free_window by assumption.
  reflexivity.
Qed.

(** X14: naive_rebalance over a window that lies inside the bitmap and
    holds no live key does not complete: it counts 0 keys, moves
    nothing, and then computes the stride [length / size] with
    [size = 0]. *)
Theorem naive_rebalance_of_empty_window_divides_by_zero
    (p : pma) (fuel window length : nat) :
  (window + length <= List.length (_free_index_bitmap p))%nat ->
  Z.of_nat (List.length (_free_index_bitmap p)) < Int32.half_modulus ->
  count_true (slice (_free_index_bitmap p) window length) = 0 ->
  (length < fuel)%nat ->
  naive_rebalance fuel p (Z.of_nat window) (Z.of_nat length) =
    Fault DivByZero.
Proof. exact (naive_rebalance_empty_window p fuel window length). Qed.

Lemma naive_rebalance_of_empty_window_divides_by_zero_one_key :
  naive_rebalance 3 one_key (Z.of_nat 2) (Z.of_nat 2) = Fault DivByZero.
Proof.
  apply (naive_rebalance_of_empty_window_divides_by_zero one_key 3 2 2);
    simpl; unfold Int32.half_modulus; lia.
Defined.

(** ** operator[] *)

(** X15: writing v through operator[] at an index below capacity
    completes; reading the index back gives v, every other index reads
    as before, and neither the occupancy bits nor size() change (a key
    written this way into a free slot stays invisible to the pma). *)
Theorem assign_then_read (p : pma) (n v : Z) :
  0 <= n < Z.of_nat (length (_storage p)) ->
  exists p',
    assign_at p n v = Ok p' /\
    at_index p' n = Ok v /\
    (forall m, m <> n -> at_index p' m = at_index p m) /\
    (forall i, index_is_free p' i = index_is_free p i) /\
    size p' = size p.
Proof.
  intros Hn. unfold assign_at, at_index, vec_set, vec_get, in_range.
  replace (0 <=? n) with true by (symmetry; apply Z.leb_le; lia).
  replace (n <? Z.of_nat (length (_storage p))) with true
    by (symmetry; apply Z.ltb_lt; lia).
  eexists. split; [reflexivity |]. cbn [_storage andb].
  rewrite length_insert.
  replace (n <? Z.of_nat (length (_storage p))) with true
    by (symmetry; apply Z.ltb_lt; lia).
  replace (0 <=? n) with true by (symmetry; apply Z.leb_le; lia).
  cbn [andb].
  split; [| split; [| split]]; try reflexivity.
  - rewrite list_lookup_insert_eq by lia. reflexivity.
  - intros m Hm.
    destruct ((0 <=? m) && (m <? Z.of_nat (length (_storage p)))) eqn:Hr;
      [| reflexivity].
    apply andb_true_iff in Hr as [Hm0 _]. apply Z.leb_le in Hm0.
    rewrite list_lookup_insert_ne by lia. reflexivity.
Qed.

Lemma assign_then_read_new_pma :
  exists p',
    assign_at pma_new 1 7 = Ok p' /\
    at_index p' 1 = Ok 7 /\
    (forall m, m <> 1 -> at_index p' m = at_index pma_new m) /\
    (forall i, index_is_free p' i = index_is_free pma_new i) /\
    size p' = size pma_new.
Proof. apply (assign_then_read pma_new 1 7). simpl. lia. Defined.

(** ** The bit helpers of pma.h *)

Lemma land_pred_of_power k : 0 <= k -> Z.land (2 ^ k) (2 ^ k - 1) = 0.
Proof.
  intros Hk. replace (2 ^ k - 1) with (Z.ones k)
    by (rewrite Z.ones_equiv; lia).
  rewrite Z.land_ones by exact Hk. apply Z.mod_same.
  pose proof (Z.pow_pos_nonneg 2 k). lia.
Qed.

Lemma land_pred_of_non_power v :
  0 < v -> ~ is_power_of_two v -> Z.land v (v - 1) <> 0.
Proof.
  intros Hv Hnp Hz.
  pose proof (Z.log2_spec v Hv) as [Hlo Hhi].
  pose proof (Z.log2_nonneg v) as Hk.
  assert (v <> 2 ^ Z.log2 v) as Hne.
  { intros Heq. apply Hnp. exists (Z.log2 v). split; assumption. }
  assert (Z.log2 (v - 1) = Z.log2 v) as Hsame.
  { apply Z.log2_unique; [exact Hk | lia]. }
  assert (Z.testbit (Z.land v (v - 1)) (Z.log2 v) = true) as Hbit.
  { rewrite Z.land_spec, (Z.bit_log2 v Hv).
    rewrite <- Hsame. rewrite Z.bit_log2 by lia. reflexivity. }
  rewrite Hz, Z.bits_0 in Hbit. discriminate.
Qed.

(** X16: is_power_of_2 answers the opposite of its name.  For a 32-bit
    v it returns true exactly when v is neither 0 nor a power of two;
    on every power of two it returns false. *)
Theorem is_power_of_2_is_inverted (v : Z) :
  0 <= v < Int32.modulus ->
  (is_power_of_2 v = true <-> v <> 0 /\ ~ is_power_of_two v).
Proof.
  intros Hv. unfold is_power_of_2.
  destruct (Z.eq_dec v 0) as [-> | Hnz].
  - simpl. split; [discriminate | intros [Hc _]; congruence].
  - rewrite u32_small by lia. rewrite negb_true_iff, Z.eqb_neq. split.
    + intros Hl. split; [exact Hnz |]. intros [k [Hk ->]].
      apply Hl, land_pred_of_power. exact Hk.
    + intros [_ Hnp]. apply land_pred_of_non_power; [lia | exact Hnp].
Qed.

Lemma is_power_of_2_is_inverted_at_6 :
  is_power_of_2 6 = true <-> 6 <> 0 /\ ~ is_power_of_two 6.
Proof.
  apply (is_power_of_2_is_inverted 6). unfold Int32.modulus. lia.
Defined.

(** One smearing step [v |= v >> m] doubles the run of ones below the
    top bit. *)
Lemma smear_step a k m :
  0 < a -> 0 < m ->
  Z.log2 a = k ->
  (forall i, 0 <= i -> k - m < i <= k -> Z.testbit a i = true) ->
  0 < Z.lor a (Z.shiftr a m) /\
  Z.log2 (Z.lor a (Z.shiftr a m)) = k /\
  (forall i, 0 <= i -> k - (m + m) < i <= k ->
             Z.testbit (Z.lor a (Z.shiftr a m)) i = true).
Proof.
  intros Ha Hm Hk Hbits.
  pose proof (Z.log2_nonneg a) as Hk0.
  assert (0 <= Z.shiftr a m) as Hs by (apply Z.shiftr_nonneg; lia).
  assert (Z.log2 (Z.lor a (Z.shiftr a m)) = k) as Hlog.
  { rewrite Z.log2_lor by lia. rewrite Z.log2_shiftr by lia. lia. }
  split; [| split].
  - destruct (Z.lor_nonneg a (Z.shiftr a m)) as [_ Hnn].
    assert (0 <= Z.lor a (Z.shiftr a m)) as H0 by (apply Hnn; lia).
    assert (Z.lor a (Z.shiftr a m) <> 0); [| lia].
    intros Hz. apply Z.lor_eq_0_l in Hz. lia.
  - exact Hlog.
  - intros i Hi Hrange. rewrite Z.lor_spec, Z.shiftr_spec by lia.
    destruct (Z_lt_le_dec (k - m) i).
    + rewrite Hbits by lia. reflexivity.
    + rewrite (Hbits (i + m)) by lia. apply orb_true_r.
Qed.

Lemma smear_all a :
  0 < a < Int32.modulus ->
  Z.lor
    (Z.lor
       (Z.lor
          (Z.lor (Z.lor a (Z.shiftr a 1))
                 (Z.shiftr (Z.lor a (Z.shiftr a 1)) 2))
          (Z.shiftr
             (Z.lor (Z.lor a (Z.shiftr a 1))
                    (Z.shiftr (Z.lor a (Z.shiftr a 1)) 2)) 4))
       (Z.shiftr
          (Z.lor
             (Z.lor (Z.lor a (Z.shiftr a 1))
                    (Z.shiftr (Z.lor a (Z.shiftr a 1)) 2))
             (Z.shiftr
                (Z.lor (Z.lor a (Z.shiftr a 1))
                       (Z.shiftr (Z.lor a (Z.shiftr a 1)) 2)) 4)) 8))
    (Z.shiftr
       (Z.lor
          (Z.lor
             (Z.lor (Z.lor a (Z.shiftr a 1))
                    (Z.shiftr (Z.lor a (Z.shiftr a 1)) 2))
             (Z.shiftr
                (Z.lor (Z.lor a (Z.shiftr a 1))
                       (Z.shiftr (Z.lor a (Z.shiftr a 1)) 2)) 4))
          (Z.shiftr
             (Z.lor
                (Z.lor (Z.lor a (Z.shiftr a 1))
                       (Z.shiftr (Z.lor a (Z.shiftr a 1)) 2))
                (Z.shiftr
                   (Z.lor (Z.lor a (Z.shiftr a 1))
                          (Z.shiftr (Z.lor a (Z.shiftr a 1)) 2)) 4)) 8))
       16)
  = 2 ^ (Z.log2 a + 1) - 1.
Proof.
  intros [Ha Hlt].
  assert (Z.log2 a < 32) as Hk
    by (apply Z.log2_lt_pow2; [lia | exact Hlt]).
  pose proof (Z.log2_nonneg a) as Hk0.
  set (k := Z.log2 a) in *.
  assert (forall i, 0 <= i -> k - 1 < i <= k -> Z.testbit a i = true) as H1.
  { intros i _ Hi. replace i with k by lia. apply Z.bit_log2. exact Ha. }
  destruct (smear_step a k 1 Ha ltac:(lia) eq_refl H1) as (Ha1 & Hl1 & H2).
  set (a1 := Z.lor a (Z.shiftr a 1)) in *.
  destruct (smear_step a1 k 2 Ha1 ltac:(lia) Hl1 H2) as (Ha2 & Hl2 & H4).
  set (a2 := Z.lor a1 (Z.shiftr a1 2)) in *.
  destruct (smear_step a2 k 4 Ha2 ltac:(lia) Hl2 H4) as (Ha3 & Hl3 & H8).
  set (a3 := Z.lor a2 (Z.shiftr a2 4)) in *.
  destruct (smear_step a3 k 8 Ha3 ltac:(lia) Hl3 H8) as (Ha4 & Hl4 & H16).
  set (a4 := Z.lor a3 (Z.shiftr a3 8)) in *.
  destruct (smear_step a4 k 16 Ha4 ltac:(lia) Hl4 H16) as (Ha5 & Hl5 & H32).
  set (a5 := Z.lor a4 (Z.shiftr a4 16)) in *.
  replace (2 ^ (k + 1) - 1) with (Z.ones (k + 1))
    by (rewrite Z.ones_equiv; lia).
  apply Z.bits_inj'. intros i Hi.
  destruct (Z_lt_le_dec k i) as [Hhigh | Hlow].
  - rewrite Z.ones_spec_high by lia.
    apply Z.bits_above_log2; lia.
  - rewrite Z.ones_spec_low by lia. apply H32; lia.
Qed.

(** X17: for 1 <= v <= 2^31, next_power_of_2 returns the smallest power
    of two that is not below v (v itself when v is a power of two). *)
Theorem next_power_of_2_is_least_power (v : Z) :
  1 <= v <= Int32.half_modulus ->
  exists k,
    0 <= k <= 31 /\
    next_power_of_2 v = 2 ^ k /\
    v <= 2 ^ k /\
    (forall j, 0 <= j -> v <= 2 ^ j -> k <= j).
Proof.
  unfold Int32.half_modulus. intros Hv.
  destruct (Z.eq_dec v 1) as [-> | Hne].
  - exists 0. repeat split; lia.
  - assert (0 < v - 1 < Int32.modulus) as Ha
      by (unfold Int32.modulus; lia).
    pose proof (Z.log2_spec (v - 1) ltac:(lia)) as [Hlo Hhi].
    pose proof (Z.log2_nonneg (v - 1)) as Hk0.
    assert (Z.log2 (v - 1) < 31) as Hk
      by (apply Z.log2_lt_pow2; lia).
    exists (Z.log2 (v - 1) + 1).
    split; [lia |]. split; [| split].
    + unfold next_power_of_2. cbv zeta.
      rewrite (u32_small (v - 1)) by lia.
      rewrite (smear_all (v - 1) Ha).
      replace (2 ^ (Z.log2 (v - 1) + 1) - 1 + 1)
        with (2 ^ (Z.log2 (v - 1) + 1)) by lia.
      apply u32_small. split; [apply Z.pow_nonneg; lia |].
      unfold Int32.modulus. apply Z.pow_lt_mono_r; lia.
    + replace (Z.log2 (v - 1) + 1) with (Z.succ (Z.log2 (v - 1))) by lia.
      lia.
    + intros j Hj Hvj.
      assert (2 ^ Z.log2 (v - 1) < 2 ^ j) as Hpow by lia.
      apply Z.pow_lt_mono_r_iff in Hpow; lia.
Qed.

Lemma next_power_of_2_is_least_power_at_5 :
  exists k,
    0 <= k <= 31 /\
    next_power_of_2 5 = 2 ^ k /\
    5 <= 2 ^ k /\
    (forall j, 0 <= j -> 5 <= 2 ^ j -> k <= j).
Proof.
  apply (next_power_of_2_is_least_power 5). unfold Int32.half_modulus. lia.
Defined.

(** X18: outside that range next_power_of_2 wraps around to 0: for
    v = 0 and for every 32-bit v above 2^31. *)
Theorem next_power_of_2_wraps_to_zero (v : Z) :
  v = 0 \/ Int32.half_modulus < v < Int32.modulus ->
  next_power_of_2 v = 0.
Proof.
  unfold Int32.half_modulus, Int32.modulus. intros [-> | Hv].
  - vm_compute. reflexivity.
  - assert (0 < v - 1 < Int32.modulus) as Ha
      by (unfold Int32.modulus; lia).
    assert (Z.log2 (v - 1) = 31) as Hk.
    { apply Z.log2_unique; lia. }
    unfold next_power_of_2. cbv zeta.
    rewrite (u32_small (v - 1)) by lia.
    rewrite (smear_all (v - 1) Ha), Hk. reflexivity.
Qed.

Lemma next_power_of_2_wraps_to_zero_at_0 : next_power_of_2 0 = 0.
Proof. apply (next_power_of_2_wraps_to_zero 0). left. reflexivity. Defined.

(** ** Empty arrays *)

Lemma segment_scan_all_free_overrun p x seg (n : nat) :
  forall (fuel i : nat),
    all_free p ->
    seg < _segment_size p ->
    (i + n = length (_free_index_bitmap p))%nat ->
    Z.of_nat (length (_free_index_bitmap p)) < Int32.modulus ->
    (n < fuel)%nat ->
    segment_scan fuel p x seg (Z.of_nat i) =
      Fault (OutOfBounds (Z.of_nat (length (_free_index_bitmap p)))).
Proof.
  induction n as [|n IH]; intros fuel i Hall Hseg Hlen Hsmall Hfuel;
    (destruct fuel as [|fuel]; [lia|]); rewrite segment_scan_step;
    apply Z.ltb_lt in Hseg as Hb; rewrite Hb.
  - rewrite index_is_free_past_end by lia.
    replace i with (length (_free_index_bitmap p)) by lia. reflexivity.
  - destruct (lookup_lt_is_Some_2 (_free_index_bitmap p) i) as [b Hl]; [lia|].
    assert (b = false) as ->.
    { unfold all_free in Hall. rewrite Forall_lookup in Hall.
      exact (Hall _ _ Hl). }
    rewrite (index_is_free_lookup _ _ _ Hl) by lia.
    rewrite bind_Ok_l. cbn [negb].
    rewrite u32_small by lia.
    replace (Z.of_nat i + 1) with (Z.of_nat (S i)) by lia.
    apply IH; try assumption; lia.
Qed.

(** X20: on a pma of any capacity with no occupied slot, insert(x)
    never completes; with fuel to scan the bitmap once it indexes the
    bitmap at its length, out of bounds.  The first key can never be
    inserted. *)
Theorem insert_into_empty_pma_overruns_bitmap
    (p : pma) (fuel : nat) (x : Z) :
  all_free p ->
  0 < _segment_size p ->
  0 < Z.of_nat (length (_storage p)) < Int32.modulus ->
  Z.of_nat (length (_free_index_bitmap p)) < Int32.modulus ->
  (forall fuel', ~ completes (insert fuel' p x)) /\
  ((length (_free_index_bitmap p) + 1 < fuel)%nat ->
   insert fuel p x =
     Fault (OutOfBounds (Z.of_nat (length (_free_index_bitmap p))))).
Proof.
  intros Hall HS Hst Hbm. split.
  - intros fuel'. apply not_completes, insert_all_free; assumption.
  - intros Hfuel. unfold insert, segment_to_insert.
    destruct fuel as [|fuel]; [lia |]. simpl.
    replace (0 <? capacity p) with true.
    2:{ symmetry. apply Z.ltb_lt. unfold capacity.
        rewrite u32_small by lia. lia. }
    assert (segment_scan fuel p x 0 0 =
            Fault (OutOfBounds (Z.of_nat (length (_free_index_bitmap p)))))
      as Hscan.
    { apply (segment_scan_all_free_overrun p x 0
               (length (_free_index_bitmap p)) fuel 0%nat);
        try assumption; lia. }
    rewrite Hscan. reflexivity.
Qed.

Lemma insert_into_empty_pma_overruns_bitmap_new :
  (forall fuel', ~ completes (insert fuel' pma_new 0)) /\
  ((length (_free_index_bitmap pma_new) + 1 < 6)%nat ->
   insert 6 pma_new 0 =
     Fault (OutOfBounds (Z.of_nat (length (_free_index_bitmap pma_new))))).
Proof.
  apply (insert_into_empty_pma_overruns_bitmap pma_new 6 0).
  - exact (fresh_all_free _ pma_new_fresh).
  - reflexivity.
  - split; reflexivity.
  - reflexivity.
Defined.

Lemma length_vec_resize {A : Type} (d : A) (v : list A) (n : nat) :
  length (vec_resize d v n) = n.
Proof.
  unfold vec_resize. rewrite length_app, length_take, length_replicate. lia.
Qed.

Lemma count_true_all_false bm :
  Forall (fun b => b = false) bm -> count_true bm = 0.
Proof. apply count_true_zero. Qed.

(** X21: resize() on a pma with no occupied slot does not complete: the
    vectors are doubled, the redistribution over the whole new array
    counts 0 keys and divides by that count. *)
Theorem resize_of_empty_pma_divides_by_zero (p : pma) (fuel : nat) :
  all_free p ->
  0 < Z.of_nat (length (_storage p)) ->
  2 * Z.of_nat (length (_storage p)) < Int32.half_modulus ->
  (2 * length (_storage p) < fuel)%nat ->
  resize fuel p = Fault DivByZero.
Proof.
  unfold Int32.half_modulus. intros Hall Hpos Hsmall Hfuel.
  unfold resize, capacity.
  rewrite u32_small by (unfold Int32.modulus; lia).
  rewrite Z.shiftl_mul_pow2 by lia. change (2 ^ 1) with 2.
  rewrite i32_small by (unfold Int32.half_modulus; lia).
  unfold log2_int.
  replace (0 <? Z.of_nat (length (_storage p)) * 2) with true
    by (symmetry; apply Z.ltb_lt; lia).
  rewrite bind_Ok_l.
  replace (Z.of_nat (length (_storage p)) * 2)
    with (2 * Z.of_nat (length (_storage p))) by lia.
  rewrite Z.log2_double by lia.
  pose proof (Z.log2_nonneg (Z.of_nat (length (_storage p)))) as Hlog.
  replace (Z.succ (Z.log2 (Z.of_nat (length (_storage p)))) =? 0) with false
    by (symmetry; apply Z.eqb_neq; lia).
  replace (2 * Z.of_nat (length (_storage p)))
    with (Z.of_nat (2 * length (_storage p))) by lia.
  rewrite Nat2Z.id.
  apply (naive_rebalance_empty_window _ fuel 0 (2 * length (_storage p)));
    cbn [_free_index_bitmap]; rewrite ?length_vec_resize;
    try (unfold Int32.half_modulus; lia).
  unfold slice. rewrite drop_0, firstn_all2
    by (rewrite length_vec_resize; lia).
  apply count_true_all_false. unfold vec_resize.
  apply Forall_app. split.
  - apply Forall_take. exact Hall.
  - apply Forall_replicate. reflexivity.
Qed.

Lemma resize_of_empty_pma_divides_by_zero_new :
  resize 9 pma_new = Fault DivByZero.
Proof.
  apply (resize_of_empty_pma_divides_by_zero pma_new 9);
    try (simpl; unfold Int32.half_modulus; lia).
  exact (fresh_all_free _ pma_new_fresh).
Defined.

(** ** Completed inserts keep the live keys sorted *)

Lemma non_decreasing_sorted l :
  non_decreasing l = true <-> StronglySorted Z.le l.
Proof.
  split.
  - intros Hnd. apply Sorted_StronglySorted; [exact Z.le_trans |].
    induction l as [|a [|b tl] IH].
    + constructor.
    + repeat constructor.
    + simpl in Hnd. apply andb_true_iff in Hnd as [Hab Htl].
      apply Z.leb_le in Hab.
      constructor; [exact (IH Htl) | constructor; exact Hab].
  - intros Hs. apply StronglySorted_Sorted in Hs.
    induction l as [|a [|b tl] IH]; try reflexivity.
    apply Sorted_inv in Hs as [Htl Hhd]. apply HdRel_inv in Hhd.
    simpl. apply andb_true_iff. split; [apply Z.leb_le; exact Hhd |].
    exact (IH Htl).
Qed.

Lemma live_keys_of_nil_r bm : live_keys_of bm [] = [].
Proof. destruct bm; reflexivity. Qed.

Lemma live_keys_of_app bm1 bm2 st1 st2 :
  length bm1 = length st1 ->
  live_keys_of (bm1 ++ bm2) (st1 ++ st2) =
    live_keys_of bm1 st1 ++ live_keys_of bm2 st2.
Proof.
  revert st1. induction bm1 as [|b bm1 IH]; intros [|k st1] Hlen;
    try discriminate; [reflexivity |].
  simpl in *. rewrite IH by lia. destruct b; reflexivity.
Qed.

Lemma live_keys_of_split (n : nat) bm st :
  (n <= length bm)%nat -> (n <= length st)%nat ->
  live_keys_of bm st =
    live_keys_of (take n bm) (take n st)
    ++ live_keys_of (drop n bm) (drop n st).
Proof.
  intros Hb Hs.
  rewrite <- (take_drop n bm) at 1. rewrite <- (take_drop n st) at 1.
  apply live_keys_of_app. rewrite !length_take. lia.
Qed.

Lemma live_keys_of_elem bm st (t : nat) a :
  bm !! t = Some true -> st !! t = Some a -> a ∈ live_keys_of bm st.
Proof.
  revert st t. induction bm as [|b bm IH]; intros [|k st] [|t] Hb Hs;
    try discriminate; simpl in *.
  - injection Hb as ->. injection Hs as ->. left.
  - destruct b; [right |]; eapply IH; eassumption.
Qed.

Lemma live_keys_of_Forall (Q : Z -> Prop) bm st :
  (forall (t : nat) a, bm !! t = Some true -> st !! t = Some a -> Q a) ->
  Forall Q (live_keys_of bm st).
Proof.
  revert st. induction bm as [|b bm IH]; intros [|k st] Hall; simpl;
    try constructor.
  - destruct b.
    + constructor; [apply (Hall 0%nat); reflexivity |].
      apply IH. intros t a Hb Hs. exact (Hall (S t) a Hb Hs).
    + apply IH. intros t a Hb Hs. exact (Hall (S t) a Hb Hs).
Qed.

Lemma live_keys_of_first bm st (from j : nat) k :
  first_occupied bm from = Some j ->
  st !! (j - from)%nat = Some k ->
  exists tl, live_keys_of bm st = k :: tl.
Proof.
  revert st from. induction bm as [|b bm IH]; intros st from Hj Hk;
    simpl in Hj; [discriminate |].
  destruct st as [|k0 st]; [discriminate |].
  destruct b.
  - injection Hj as <-. rewrite Nat.sub_diag in Hk. injection Hk as ->.
    simpl. eexists. reflexivity.
  - apply first_occupied_ge in Hj as Hge. simpl.
    apply (IH st (S from)); [exact Hj |].
    replace (j - from)%nat with (S (j - S from)) in Hk by lia. exact Hk.
Qed.

Lemma live_keys_placed p (pos : nat) x :
  _free_index_bitmap p !! pos = Some false ->
  (pos < length (_storage p))%nat ->
  live_keys p =
    live_keys_of (take pos (_free_index_bitmap p)) (take pos (_storage p))
    ++ live_keys_of (drop (S pos) (_free_index_bitmap p))
                    (drop (S pos) (_storage p)) /\
  live_keys (placed p (Z.of_nat pos) x) =
    live_keys_of (take pos (_free_index_bitmap p)) (take pos (_storage p))
    ++ x :: live_keys_of (drop (S pos) (_free_index_bitmap p))
                         (drop (S pos) (_storage p)).
Proof.
  intros Hb Hs. apply lookup_lt_Some in Hb as Hlt.
  destruct (lookup_lt_is_Some_2 (_storage p) pos Hs) as [k Hk].
  split.
  - unfold live_keys. rewrite (live_keys_of_split pos) by lia.
    rewrite (drop_S _ _ _ Hb), (drop_S _ _ _ Hk). reflexivity.
  - unfold live_keys, placed. cbn [_free_index_bitmap _storage].
    rewrite Nat2Z.id. rewrite !insert_take_drop by lia.
    rewrite live_keys_of_app by (rewrite !length_take; lia).
    reflexivity.
Qed.

Lemma sorted_insert_middle (l1 l2 : list Z) x :
  Forall (fun a => a = x) l1 ->
  Forall (fun a => x <= a) l2 ->
  StronglySorted Z.le l2 ->
  StronglySorted Z.le (l1 ++ x :: l2).
Proof.
  intros H1 H2 Hs. apply StronglySorted_app_2.
  - intros a b Ha Hb. rewrite Forall_forall in H1. rewrite (H1 _ Ha).
    apply elem_of_cons in Hb as [-> | Hb]; [lia |].
    rewrite Forall_forall in H2. exact (H2 _ Hb).
  - clear H2 Hs. induction H1 as [|a l1 -> Hrest IH]; constructor;
      [exact IH |].
    eapply Forall_impl; [exact Hrest |]. intros b ->. lia.
  - constructor; assumption.
Qed.

(** The scan of [position_to_insert] over a prefix whose live keys all
    equal [x], in an array whose live keys are all at least [x]. *)
Lemma position_loop_prefix p x fuel :
  (forall (t : nat) a,
     _free_index_bitmap p !! t = Some true -> _storage p !! t = Some a ->
     x <= a) ->
  forall (i : nat) pos r,
    (forall (t : nat) a,
       (t < i)%nat ->
       _free_index_bitmap p !! t = Some true -> _storage p !! t = Some a ->
       a = x) ->
    0 <= pos <= Z.of_nat i ->
    position_loop fuel p x (Z.of_nat i) pos = Ok r ->
    0 <= r /\
    forall (t : nat) a,
      Z.of_nat t < r ->
      _free_index_bitmap p !! t = Some true -> _storage p !! t = Some a ->
      a = x.
Proof.
  intros Hall. pose proof (u32_range (_segment_size p - 1)) as HB.
  induction fuel as [|fuel IH]; intros i pos r Hpre Hpos E; simpl in E;
    [discriminate |].
  destruct (Z.of_nat i <? u32 (_segment_size p - 1)) eqn:Hlt.
  - apply Z.ltb_lt in Hlt.
    rewrite (u32_small (Z.of_nat i + 1)) in E by lia.
    replace (Z.of_nat i + 1) with (Z.of_nat (S i)) in E by lia.
    bind_inv E. apply index_is_free_inv in E0; [| lia].
    destruct a; cbn [negb] in E0.
    + apply (IH (S i) pos r); [| lia | exact E].
      intros t b Ht Hb Hs. destruct (Nat.eq_dec t i) as [-> | Hne].
      * congruence.
      * apply (Hpre t b); [lia | assumption | assumption].
    + bind_inv E. apply vec_get_inv in E1.
      destruct (x =? a) eqn:Heq.
      * apply Z.eqb_eq in Heq. subst a.
        apply (IH (S i) (Z.of_nat (S i)) r); [| lia | exact E].
        intros t b Ht Hb Hs. destruct (Nat.eq_dec t i) as [-> | Hne].
        -- congruence.
        -- apply (Hpre t b); [lia | assumption | assumption].
      * pose proof (Hall i a E0 E1) as Hle.
        replace (x >? a) with false in E
          by (symmetry; rewrite Z.gtb_ltb; apply Z.ltb_ge; lia).
        injection E as <-. split; [lia |].
        intros t b Ht. apply Hpre. lia.
  - injection E as <-. split; [lia |].
    intros t b Ht. apply Hpre. lia.
Qed.

Lemma vec_set_Ok_range {A : Type} (v v' : list A) (i : Z) (a : A) :
  vec_set v i a = Ok v' -> 0 <= i < Z.of_nat (length v).
Proof.
  unfold vec_set, in_range. intros E.
  destruct (_ && _) eqn:Hr; [| discriminate].
  apply andb_true_iff in Hr as [H1 H2].
  apply Z.leb_le in H1. apply Z.ltb_lt in H2. lia.
Qed.

(** X22: on a pma whose live keys are in non-decreasing order, an
    insert(x) that completes leaves them in non-decreasing order; the
    pma is either unchanged or holds the same live keys with x added
    once and size() incremented. *)
Theorem insert_keeps_live_keys_sorted (p p' : pma) (fuel : nat) (x : Z) :
  0 < _segment_size p <= Int32.half_modulus ->
  Z.of_nat (length (_storage p)) <= Int32.half_modulus ->
  Z.of_nat (length (_free_index_bitmap p)) < Int32.modulus ->
  non_decreasing (live_keys p) = true ->
  insert fuel p x = Ok p' ->
  non_decreasing (live_keys p') = true /\
  (p' = p \/
   (live_keys p' ≡ₚ x :: live_keys p /\ size p' = u32 (size p + 1))).
Proof.
  intros HS Hst Hbm Hsorted E. unfold insert in E.
  bind_inv E. rename a into segment, E0 into Eseg.
  bind_inv E. rename a into pos, E0 into Epos.
  bind_inv E. rename a into free, E0 into Efree.
  apply (segment_to_insert_inv p HS Hst Hbm) in Eseg
    as (j & k & Hj & Hk & Hxk & Hseg).
  apply non_decreasing_sorted in Hsorted.
  assert (forall (t : nat) a,
            _free_index_bitmap p !! t = Some true ->
            _storage p !! t = Some a -> x <= a) as Hall.
  { intros t a Hb Hs.
    pose proof (live_keys_of_elem _ _ _ _ Hb Hs) as Hin.
    destruct (live_keys_of_first _ (_storage p) 0 j k Hj) as [tl Htl];
      [rewrite Nat.sub_0_r; exact Hk |].
    fold (live_keys p) in Hin. unfold live_keys in Hsorted, Hin.
    rewrite Htl in Hsorted, Hin.
    apply StronglySorted_cons in Hsorted as [Hhd _].
    apply elem_of_cons in Hin as [-> | Hin]; [exact Hxk |].
    rewrite Forall_forall in Hhd. pose proof (Hhd _ Hin). lia. }
  unfold position_to_insert in Epos.
  pose proof Epos as Hbound.
  apply (position_loop_bound _ _ _ _ _ _ (proj1 (u32_range _))) in Hbound.
  2:{ pose proof (u32_range (_segment_size p - 1)). lia. }
  rewrite u32_small in Hbound
    by (unfold Int32.half_modulus, Int32.modulus in *; lia).
  assert (forall (t : nat) a,
            Z.of_nat t < pos ->
            _free_index_bitmap p !! t = Some true ->
            _storage p !! t = Some a -> a = x) as Hprefix.
  { destruct (x =? k); subst segment.
    - change (u32 0) with (Z.of_nat 0) in Epos.
      apply (position_loop_prefix p x fuel Hall 0%nat 0 pos) in Epos;
        [exact (proj2 Epos) | intros t a Ht; lia | simpl; lia].
    - destruct fuel as [|fuel]; [discriminate |].
      rewrite (position_to_insert_wrapped_loop p fuel x HS) in Epos.
      injection Epos as <-. intros t a Ht. lia. }
  destruct free.
  - bind_inv E. rename a into p1, E0 into Estore.
    bind_inv E. rename a into p2, E0 into Eflip.
    injection E as <-.
    rewrite (placement p pos x) with (p1 := p1)
      by (try assumption;
          unfold Int32.half_modulus, Int32.modulus in *; lia).
    unfold store in Estore. bind_inv Estore.
    apply vec_set_Ok_range in E.
    assert (pos = Z.of_nat (Z.to_nat pos)) as Hnat by lia.
    rewrite Hnat in Efree.
    apply index_is_free_inv in Efree;
      [| unfold Int32.half_modulus, Int32.modulus in *; lia].
    cbn [negb] in Efree.
    destruct (live_keys_placed p (Z.to_nat pos) x Efree ltac:(lia))
      as [Hold Hnew].
    rewrite <- Hnat in Hnew. rewrite Hnew. rewrite Hold in Hsorted.
    split.
    + apply non_decreasing_sorted, sorted_insert_middle.
      * apply live_keys_of_Forall. intros t key Hb Hs.
        apply lookup_take_Some in Hb as [Hb Ht].
        apply lookup_take_Some in Hs as [Hs _].
        apply (Hprefix t key); [lia | assumption | assumption].
      * apply live_keys_of_Forall. intros t key Hb Hs.
        rewrite lookup_drop in Hb. rewrite lookup_drop in Hs.
        exact (Hall _ _ Hb Hs).
      * exact (StronglySorted_app_1_r _ _ _ Hsorted).
    + right. split; [| reflexivity].
      rewrite Hold. symmetry. apply Permutation_middle.
  - bind_inv E. rename a into sz, E0 into Esz.
    apply non_decreasing_sorted in Hsorted.
    destruct (_segment_size p =? 0); [discriminate |].
    destruct (x =? k); subst segment.
    + destruct (_ && _).
      * exfalso. exact (rebalance_zero_never_completes _ _ _ E).
      * injection E as <-. split; [exact Hsorted | left; reflexivity].
    + destruct fuel as [|fuel]; [discriminate |].
      rewrite window_size_wrapped_segment in Esz
        by (unfold Int32.half_modulus, Int32.modulus in *; lia).
      injection Esz as <-.
      rewrite insert_density_test_wrapped in E by lia.
      injection E as <-. split; [exact Hsorted | left; reflexivity].
Qed.

Lemma insert_keeps_live_keys_sorted_gap_key :
  non_decreasing (live_keys (placed gap_key 0 4)) = true /\
  (placed gap_key 0 4 = gap_key \/
   (live_keys (placed gap_key 0 4) ≡ₚ 4 :: live_keys gap_key /\
    size (placed gap_key 0 4) = u32 (size gap_key + 1))).
Proof.
  apply (insert_keeps_live_keys_sorted gap_key (placed gap_key 0 4) 4 4);
    try (simpl; unfold Int32.half_modulus, Int32.modulus; lia);
    reflexivity.
Defined.
